(** * RAG corpus synchronisation: a shallow embedding and its properties

    The development follows the three source files of the repository:

    - [src/populate_database.py]: chunk identity, the index writer and the
      directory synchroniser;
    - [src/watcher.py]: the supervisor that restarts the answering service;
    - [src/fastapi_app.py]: the JSON log store ([log_to_json]) and the
      query endpoint ([query_rag]).

    Python values that matter for the properties are kept as the code has
    them: metadata is a dictionary from string keys to values, a missing key
    raises [KeyError] on [m[k]] and yields [None] on [m.get(k)], and
    exceptions are threaded through an error monad.  The vector store, the
    PDF loader, the text splitter, [os.path.abspath], the JSON codec, the
    clock and the language model are external collaborators; they appear
    as a reference model of their interface (the store), as section
    variables or as the fields of a record (the others). *)

From Stdlib Require Import ZArith String Ascii List Lia Permutation.
From stdpp Require Import base numbers option list strings gmap pretty.

Local Open Scope string_scope.
Local Open Scope list_scope.
Local Open Scope nat_scope.

(** ** Python values, exceptions and the error monad *)

Module Py.

(** The scalar values that occur in chunk metadata. *)
Inductive value : Type :=
| VNone
| VInt (z : Z)
| VStr (s : string).

#[global] Instance value_eq_dec : EqDecision value.
Proof. solve_decision. Defined.

#[global] Instance VStr_inj : Inj (=) (=) VStr.
Proof. by intros s1 s2 [= ->]. Qed.

(** [f"{v}"]: the text an f-string substitutes for a value. *)
Definition format (v : value) : string :=
  match v with
  | VNone => "None"
  | VInt z => pretty z
  | VStr s => s
  end.

(** The exception classes the three modules can meet.  All of them but
    [KeyboardInterrupt] derive from [Exception]. *)
Inductive exn : Type :=
| KeyError (key : string)
| TypeError
| ValueError
| AttributeError
| FileNotFoundError
| JSONDecodeError
| OSError
| CalledProcessError (returncode : Z)
| KeyboardInterrupt.

#[global] Instance exn_eq_dec : EqDecision exn.
Proof. solve_decision. Defined.

Definition is_Exception (e : exn) : bool :=
  match e with
  | KeyboardInterrupt => false
  | _ => true
  end.

Inductive result (A : Type) : Type :=
| Ok (a : A)
| Raise (e : exn).
Arguments Ok {A} a.
Arguments Raise {A} e.

#[global] Instance result_ret : MRet result := @Ok.
#[global] Instance result_bind : MBind result := λ A B f r,
  match r with
  | Ok a => f a
  | Raise e => Raise e
  end.

(** [m[k]] *)
Definition getitem (m : gmap string value) (k : string) : result value :=
  match m !! k with
  | Some v => Ok v
  | None => Raise (KeyError k)
  end.

(** [m.get(k)] *)
Definition get (m : gmap string value) (k : string) : value :=
  default VNone (m !! k).

(** A call into a library that insists on a [str] argument. *)
Definition as_str (v : value) : result string :=
  match v with
  | VStr s => Ok s
  | _ => Raise TypeError
  end.

(** [range(start, stop, step)] for a positive step, unrolled the way a
    [for] loop consumes it: yield [start] while it is below [stop]. *)
Fixpoint range_loop (fuel : nat) (start stop step : nat) : list nat :=
  match fuel with
  | O => []
  | S fuel' =>
      if decide (start < stop)
      then start :: range_loop fuel' (start + step) stop step
      else []
  end.

Definition range (start stop step : nat) : list nat :=
  range_loop (stop - start) start stop step.

(** [l[i:j]] for [0 <= i <= j]; indices beyond the end are clipped. *)
Definition slice {A} (l : list A) (i j : nat) : list A :=
  take (j - i) (drop i l).

(** [[f(x) for x in xs]] *)
Fixpoint comprehension {A B} (f : A → result B) (xs : list A) : result (list B) :=
  match xs with
  | [] => Ok []
  | x :: rest => y ← f x; ys ← comprehension f rest; Ok (y :: ys)
  end.

End Py.
Import Py.

(** ** [populate_database.py] *)

Module populate_database.

(** A langchain [Document]: text and a metadata dictionary. *)
Record Document : Type := mkDocument {
  page_content : string;
  metadata : gmap string value
}.

#[global] Instance Document_eq_dec : EqDecision Document.
Proof. solve_decision. Defined.

(** [chunk.metadata[k] = v] *)
Definition set_metadata (chunk : Document) (k : string) (v : value) : Document :=
  {| page_content := page_content chunk; metadata := <[k := v]> (metadata chunk) |}.

(** The loop of [calculate_chunk_ids], with its two local variables as
    accumulators.  [last_page_id] starts as [None], which no string equals.
    The function is read from list to list: the splitter builds a Document
    with a metadata dictionary of its own for every chunk, so that the
    assignment to [chunk.metadata["id"]] changes one position of the list
    ([calculate_chunk_ids_in_place] below keeps the objects apart from the
    list). *)
Fixpoint calculate_chunk_ids_loop (last_page_id : option string)
    (current_chunk_index : nat) (chunks : list Document) : list Document :=
  match chunks with
  | [] => []
  | chunk :: rest =>
      let source := get (metadata chunk) "source" in
      let page := get (metadata chunk) "page" in
      let current_page_id := format source +:+ ":" +:+ format page in
      let current_chunk_index :=
        if decide (Some current_page_id = last_page_id)
        then current_chunk_index + 1
        else 0 in
      let chunk_id := current_page_id +:+ ":" +:+ pretty current_chunk_index in
      let last_page_id := Some current_page_id in
      set_metadata chunk "id" (VStr chunk_id)
        :: calculate_chunk_ids_loop last_page_id current_chunk_index rest
  end.

Definition calculate_chunk_ids (chunks : list Document) : list Document :=
  calculate_chunk_ids_loop None 0 chunks.

(** The same loop on the interpreter's objects: the list holds references
    and the assignment updates the object a reference points to. *)
Fixpoint calculate_chunk_ids_in_place (last_page_id : option string)
    (current_chunk_index : nat) (chunks : list nat)
    (heap : gmap nat Document) : gmap nat Document :=
  match chunks with
  | [] => heap
  | ref :: rest =>
      match heap !! ref with
      | None => heap
      | Some chunk =>
          let source := get (metadata chunk) "source" in
          let page := get (metadata chunk) "page" in
          let current_page_id := format source +:+ ":" +:+ format page in
          let current_chunk_index :=
            if decide (Some current_page_id = last_page_id)
            then current_chunk_index + 1
            else 0 in
          let chunk_id := current_page_id +:+ ":" +:+ pretty current_chunk_index in
          let last_page_id := Some current_page_id in
          calculate_chunk_ids_in_place last_page_id current_chunk_index rest
            (<[ref := set_metadata chunk "id" (VStr chunk_id)]> heap)
      end
  end.

(** *** Vocabulary for the properties of chunk identity *)

(** [f"{source}:{page}"] of a chunk. *)
Definition page_id (chunk : Document) : string :=
  format (get (metadata chunk) "source") +:+ ":" +:+
  format (get (metadata chunk) "page").

(** The [(source, page)] pair of a chunk. *)
Definition page_key (chunk : Document) : value * value :=
  (get (metadata chunk) "source", get (metadata chunk) "page").

(** The metadata the PDF loader attaches: a path and a page number. *)
Definition loader_typed (chunk : Document) : Prop :=
  ∃ s p, page_key chunk = (VStr s, VInt p).

(** The sequence number of position [i], told by runs: the first chunk of a
    run of equal page ids has number 0, every later chunk of the run has its
    predecessor's number plus one. *)
Fixpoint sequence_at (page_ids : list string) (i : nat) : nat :=
  match i with
  | 0 => 0
  | S j =>
      if decide (page_ids !! S j = page_ids !! j)
      then S (sequence_at page_ids j)
      else 0
  end.

(** A chunk as the loader and the splitter hand it over. *)
Definition pdf_chunk (source : string) (page : Z) (text : string) : Document :=
  {| page_content := text;
     metadata := <["page" := VInt page]> (<["source" := VStr source]> ∅) |}.

(** The ids a chunk list carries, position by position. *)
Definition chunk_ids (chunks : list Document) : list (option value) :=
  (λ chunk, metadata chunk !! "id") <$> chunks.

(** Chunks arrive grouped by [(source, page)]: no pair comes back after a
    chunk of another pair. *)
Definition grouped (chunks : list Document) : Prop :=
  ∀ i m j ci cm cj,
    i < m < j →
    chunks !! i = Some ci → chunks !! m = Some cm → chunks !! j = Some cj →
    page_key ci = page_key cj → page_key cm = page_key ci.

(** The chunks of different blocks (files) have different page ids. *)
Fixpoint separated (blocks : list (list Document)) : Prop :=
  match blocks with
  | [] => True
  | block :: rest =>
      (∀ c c' block', c ∈ block → block' ∈ rest → c' ∈ block' →
                      page_id c ≠ page_id c') ∧
      separated rest
  end.

(** One turn of the loop on its two variables. *)
Definition advance (st : option string * nat) (chunk : Document)
    : option string * nat :=
  (Some (page_id chunk),
   if decide (Some (page_id chunk) = st.1) then st.2 + 1 else 0).

Fixpoint has_colon (s : string) : bool :=
  match s with
  | EmptyString => false
  | String c rest => bool_decide (c = ":"%char) || has_colon rest
  end.

(** *** The vector store

    Chroma is consumed through four calls: [get], [add_documents], [delete]
    and [update].  The reference model keeps the collection as a list of
    records keyed by [rec_id] and logs every write call it receives; the
    embedding vector is opaque and left out.  Ids handed to the store must be
    strings.  Adding is an upsert, one document after the other.  The calls
    of the model always return: a store that is down or out of space is
    outside the model.  The four calls are taken as the code makes them,
    with the meaning chromadb gives them; the source does not show whether
    the client class it constructs offers each of them under this name. *)

Record IndexRecord : Type := mkRecord {
  rec_id : string;
  rec_document : string;
  rec_metadata : gmap string value
}.

#[global] Instance IndexRecord_eq_dec : EqDecision IndexRecord.
Proof. solve_decision. Defined.

Inductive WriteCall : Type :=
| AddDocuments (batch : list Document) (ids : list string)
| Delete (ids : list string)
| Update (id : string) (new_metadata : gmap string value).

Record Chroma : Type := mkChroma {
  collection : list IndexRecord;
  write_log : list WriteCall
}.

(** The dictionary [db.get(...)] returns: parallel lists. *)
Record GetResult : Type := mkGetResult {
  ids : list string;
  metadatas : list (gmap string value)
}.

Definition db_get (db : Chroma) : GetResult :=
  {| ids := rec_id <$> collection db;
     metadatas := rec_metadata <$> collection db |}.

Definition upsert (r : IndexRecord) (col : list IndexRecord) : list IndexRecord :=
  if decide (rec_id r ∈ rec_id <$> col)
  then (λ r', if decide (rec_id r' = rec_id r) then r else r') <$> col
  else col ++ [r].

Definition record_of (chunk : Document) (id : string) : IndexRecord :=
  {| rec_id := id;
     rec_document := page_content chunk;
     rec_metadata := metadata chunk |}.

Definition db_add_documents (db : Chroma) (batch : list Document)
    (ids : list value) : result Chroma :=
  ids ← comprehension as_str ids;
  Ok {| collection :=
          foldl (λ col '(chunk, id), upsert (record_of chunk id) col)
                (collection db) (zip batch ids);
        write_log := write_log db ++ [AddDocuments batch ids] |}.

Definition db_delete (db : Chroma) (ids : list value) : result Chroma :=
  ids ← comprehension as_str ids;
  Ok {| collection := filter (λ r, rec_id r ∉ ids) (collection db);
        write_log := write_log db ++ [Delete ids] |}.

Definition db_update (db : Chroma) (id : value)
    (new_metadata : gmap string value) : result Chroma :=
  id ← as_str id;
  Ok {| collection :=
          (λ r, if decide (rec_id r = id)
                then {| rec_id := rec_id r;
                        rec_document := rec_document r;
                        rec_metadata := new_metadata |}
                else r) <$> collection db;
        write_log := write_log db ++ [Update id new_metadata] |}.

(** *** [add_to_chroma] *)

Definition BATCH_SIZE : nat := 50.

(** [[chunk for chunk in chunks_with_ids
      if chunk.metadata["id"] not in existing_ids]] *)
Fixpoint select_new_chunks (existing_ids : list value)
    (chunks_with_ids : list Document) : result (list Document) :=
  match chunks_with_ids with
  | [] => Ok []
  | chunk :: rest =>
      id ← getitem (metadata chunk) "id";
      new_chunks ← select_new_chunks existing_ids rest;
      Ok (if decide (id ∉ existing_ids) then chunk :: new_chunks else new_chunks)
  end.

(** The body of [for i in range(0, len(new_chunks), BATCH_SIZE)]. *)
Fixpoint add_batches (db : Chroma) (new_chunks : list Document)
    (starts : list nat) : result Chroma :=
  match starts with
  | [] => Ok db
  | i :: rest =>
      let batch := slice new_chunks i (i + BATCH_SIZE) in
      batch_ids ← comprehension (λ chunk, getitem (metadata chunk) "id") batch;
      db ← db_add_documents db batch batch_ids;
      add_batches db new_chunks rest
  end.

Definition add_to_chroma (db : Chroma) (chunks : list Document) : result Chroma :=
  let chunks_with_ids := calculate_chunk_ids chunks in
  let existing_ids := remove_dups (VStr <$> ids (db_get db)) in
  new_chunks ← select_new_chunks existing_ids chunks_with_ids;
  match new_chunks with
  | _ :: _ => add_batches db new_chunks (range 0 (length new_chunks) BATCH_SIZE)
  | [] => Ok db
  end.

(** *** Vocabulary for the properties of the index writer *)

(** A chunk that carries a string id. *)
Definition identified (chunk : Document) : Prop :=
  ∃ id, metadata chunk !! "id" = Some (VStr id).

(** The id of the chunk is not among the existing ids. *)
Definition is_new (existing_ids : list value) (chunk : Document) : Prop :=
  get (metadata chunk) "id" ∉ existing_ids.

Definition id_string (chunk : Document) : string :=
  format (get (metadata chunk) "id").

(** The chunks of a list that the store does not hold yet. *)
Definition new_chunks_of (db : Chroma) (chunks : list Document) : list Document :=
  filter (is_new (VStr <$> ids (db_get db))) (calculate_chunk_ids chunks).

(** The write call that carries one batch. *)
Definition batch_call (batch : list Document) : WriteCall :=
  AddDocuments batch (id_string <$> batch).

Definition slices (new_chunks : list Document) (starts : list nat)
    : list (list Document) :=
  (λ i, slice new_chunks i (i + BATCH_SIZE)) <$> starts.

Definition batches_of (new_chunks : list Document) : list (list Document) :=
  slices new_chunks (range 0 (length new_chunks) BATCH_SIZE).

(** What one [add_documents] call does to the collection. *)
Definition add_records (col : list IndexRecord) (batch : list Document)
    : list IndexRecord :=
  foldl (λ col '(chunk, id), upsert (record_of chunk id) col) col
        (zip batch (id_string <$> batch)).

(** *** Vocabulary for the properties of the synchroniser *)

Definition source_of (r : IndexRecord) : value := get (rec_metadata r) "source".

(** A record as [add_to_chroma] writes it: the metadata repeats the id and
    names the source file. *)
Definition well_formed_record (r : IndexRecord) : Prop :=
  rec_metadata r !! "id" = Some (VStr (rec_id r)) ∧
  ∃ s, rec_metadata r !! "source" = Some (VStr s).

(** The store keeps one record per id. *)
Definition well_formed (db : Chroma) : Prop :=
  NoDup (rec_id <$> collection db) ∧ Forall well_formed_record (collection db).

Definition is_str (v : value) : Prop := ∃ s, v = VStr s.

(** *** Paths *)

Definition is_slash (c : ascii) : bool := bool_decide (c = "/"%char).

Fixpoint has_slash (p : string) : bool :=
  match p with
  | EmptyString => false
  | String c rest => is_slash c || has_slash rest
  end.

(** [posixpath.basename]: what follows the last slash. *)
Fixpoint path_basename (p : string) : string :=
  match p with
  | EmptyString => EmptyString
  | String c rest =>
      if has_slash rest then path_basename rest
      else if is_slash c then rest
      else p
  end.

Fixpoint last_char (p : string) : option ascii :=
  match p with
  | EmptyString => None
  | String c EmptyString => Some c
  | String _ rest => last_char rest
  end.

(** [posixpath.join(a, b)] *)
Definition path_join (a b : string) : string :=
  match b with
  | String "/" _ => b
  | _ =>
      match last_char a with
      | None | Some "/"%char => a +:+ b
      | Some _ => a +:+ "/" +:+ b
      end
  end.

(** [s.endswith(suffix)] *)
Definition endswith (s suffix : string) : bool :=
  bool_decide (String.length suffix ≤ String.length s)%nat &&
  bool_decide (substring (String.length s - String.length suffix)%nat
                 (String.length suffix) s = suffix).

(** [os.path.basename(v)]: a [TypeError] on anything but a string. *)
Definition basename (v : value) : result string :=
  s ← as_str v; Ok (path_basename s).

(** *** The synchroniser

    A Python [set] is kept as a duplicate-free list; the list order stands
    for the iteration order of the set, which Python leaves unspecified. *)

Section Synchronizer.

(** The configured corpus directory and [os.path.abspath], which depends
    on the working directory of the process. *)
Variable DATA_PATH : string.
Variable abspath : string → string.

(** [{item["source"] for item in existing_items["metadatas"]}] *)
Definition sources_of (metadatas : list (gmap string value)) : result (list value) :=
  sources ← comprehension (λ item, getitem item "source") metadatas;
  Ok (remove_dups sources).

(** The two comprehensions over [os.listdir(DATA_PATH)]. *)
Definition scan_current_sources (listdir : list string) : list value :=
  let current_files :=
    remove_dups (path_join DATA_PATH <$> filter (λ f, endswith f ".pdf") listdir) in
  remove_dups ((λ file, VStr (abspath file)) <$> current_files).

(** [[doc["id"] for doc in existing_items["metadatas"]
      if doc["source"] in removed_sources]] *)
Fixpoint removed_ids_of (removed_sources : list value)
    (metadatas : list (gmap string value)) : result (list value) :=
  match metadatas with
  | [] => Ok []
  | doc :: rest =>
      source ← getitem doc "source";
      if decide (source ∈ removed_sources)
      then id ← getitem doc "id";
           removed_ids ← removed_ids_of removed_sources rest;
           Ok (id :: removed_ids)
      else removed_ids_of removed_sources rest
  end.

(** The inner loop of [detect_renamed_files]: the first current source
    with the basename of [source], if any. *)
Fixpoint first_same_basename (source : value) (current_sources : list value)
    : result (option value) :=
  match current_sources with
  | [] => Ok None
  | new_source :: rest =>
      b ← basename source;
      b' ← basename new_source;
      if decide (b = b') then Ok (Some new_source)
      else first_same_basename source rest
  end.

(** [d[k] = v] on an insertion-ordered dictionary. *)
Fixpoint dict_set (d : list (value * value)) (k v : value) : list (value * value) :=
  match d with
  | [] => [(k, v)]
  | (k', v') :: rest =>
      if decide (k' = k) then (k, v) :: rest else (k', v') :: dict_set rest k v
  end.

Fixpoint detect_renamed_loop (renamed_files : list (value * value))
    (sources current_sources : list value) : result (list (value * value)) :=
  match sources with
  | [] => Ok renamed_files
  | source :: rest =>
      if decide (source ∉ current_sources)
      then found ← first_same_basename source current_sources;
           match found with
           | Some new_source =>
               detect_renamed_loop (dict_set renamed_files source new_source)
                 rest current_sources
           | None => detect_renamed_loop renamed_files rest current_sources
           end
      else detect_renamed_loop renamed_files rest current_sources
  end.

Definition detect_renamed_files (existing_sources current_sources : list value)
    : result (list (value * value)) :=
  detect_renamed_loop [] existing_sources current_sources.

(** The loop of [update_source_in_db] runs over the snapshot taken by
    [db.get] while the store itself is updated. *)
Fixpoint update_source_loop (db : Chroma) (snapshot : list (gmap string value))
    (old_source new_source : value) : result Chroma :=
  match snapshot with
  | [] => Ok db
  | metadata :: rest =>
      source ← getitem metadata "source";
      if decide (source = old_source)
      then doc_id ← getitem metadata "id";
           let updated_metadata := <["source" := new_source]> metadata in
           db ← db_update db doc_id updated_metadata;
           update_source_loop db rest old_source new_source
      else update_source_loop db rest old_source new_source
  end.

Definition update_source_in_db (db : Chroma) (old_source new_source : value)
    : result Chroma :=
  let existing_items := db_get db in
  update_source_loop db (metadatas existing_items) old_source new_source.

(** [for old_source, new_source in renamed_files.items(): ...] *)
Fixpoint update_renamed (db : Chroma) (renamed_files : list (value * value))
    : result Chroma :=
  match renamed_files with
  | [] => Ok db
  | (old_source, new_source) :: rest =>
      db ← update_source_in_db db old_source new_source;
      update_renamed db rest
  end.

(** [existing_sources - current_sources], read off the records. *)
Definition removed_sources_of (db : Chroma) (listdir : list string) : list value :=
  list_difference (remove_dups (source_of <$> collection db))
                  (scan_current_sources listdir).

Definition sync_with_directory (db : Chroma) (listdir : list string)
    : result Chroma :=
  let existing_items := db_get db in
  existing_sources ← sources_of (metadatas existing_items);
  let current_sources := scan_current_sources listdir in
  let removed_sources := list_difference existing_sources current_sources in
  db ← match removed_sources with
       | _ :: _ =>
           removed_ids ← removed_ids_of removed_sources (metadatas existing_items);
           db_delete db removed_ids
       | [] => Ok db
       end;
  renamed_files ← detect_renamed_files existing_sources current_sources;
  update_renamed db renamed_files.

(** *** Deletion correctness, in the words of the specification

    [existing_sources] are the sources the Index Records name,
    [current_sources] the absolute paths of the eligible files of the
    corpus directory, and a removed source is one of
    [existing_sources - current_sources].  These definitions follow the
    specification and not the code; the pass is compared with them. *)

Definition existing_source (db : Chroma) (v : value) : Prop :=
  ∃ r, r ∈ collection db ∧ rec_metadata r !! "source" = Some v.

Definition current_source (listdir : list string) (v : value) : Prop :=
  ∃ file, file ∈ listdir ∧ endswith file ".pdf" = true ∧
          v = VStr (abspath (path_join DATA_PATH file)).

Definition removed_source (db : Chroma) (listdir : list string) (v : value) : Prop :=
  existing_source db v ∧ ¬ current_source listdir v.

(** A pass returns, and it has deleted exactly the records whose source
    metadata is a removed source: these are gone, every other record is
    still there, and what is there is a record of the store before the
    pass, in the order of before. *)
Definition deletes_exactly_removed (db : Chroma) (listdir : list string) : Prop :=
  ∃ db',
    sync_with_directory db listdir = Ok db' ∧
    collection db' `sublist_of` collection db ∧
    ∀ r, r ∈ collection db →
      (r ∈ collection db' ↔
       ¬ ∃ v, rec_metadata r !! "source" = Some v ∧ removed_source db listdir v).

(** *** The command-line entry point *)

(** The text splitter is an external library call. *)
Variable split_documents : list Document → list Document.

(** What one run observes of the corpus directory: its listing and what
    the PDF loader returns for it. *)
Record Corpus : Type := mkCorpus {
  listdir : list string;
  load_documents : list Document
}.

(** [rm -rf CHROMA_PATH]: the store is emptied behind the client's back. *)
Definition clear_database (db : Chroma) : Chroma :=
  {| collection := []; write_log := write_log db |}.

Definition main (reset : bool) (corpus : Corpus) (db : Chroma) : result Chroma :=
  let db := if reset then clear_database db else db in
  db ← sync_with_directory db (listdir corpus);
  let documents := load_documents corpus in
  let chunks := split_documents documents in
  add_to_chroma db chunks.

End Synchronizer.

(** *** Sample stores *)

(** The record the index writer leaves for chunk [n] of a page. *)
Definition indexed (source : string) (page : Z) (n : nat) (text : string)
    : IndexRecord :=
  let id := source +:+ ":" +:+ pretty page +:+ ":" +:+ pretty n in
  record_of (set_metadata (pdf_chunk source page text) "id" (VStr id)) id.

(** A store that holds the two chunks of one single-page file. *)
Definition index_of (source : string) : Chroma :=
  {| collection := [indexed source 0 0 "first"; indexed source 0 1 "second"];
     write_log := [] |}.

Definition two_files_index : Chroma :=
  {| collection := [indexed "/data/a.pdf" 0 0 "first"; indexed "/data/b.pdf" 0 0 "one";
                    indexed "/data/a.pdf" 0 1 "second"];
     write_log := [] |}.

(** *** Vocabulary for rename detection and rewriting *)

(** The first current source that has the basename of [old], in the
    iteration order of [current_sources]. *)
Definition first_match (old : string) (current : list string) : option string :=
  List.find (λ c, bool_decide (path_basename old = path_basename c)) current.

(** The entry [detect_renamed_files] makes for one existing source. *)
Definition renamed_entry (current : list string) (old : string)
    : option (value * value) :=
  if decide (old ∈ current) then None
  else (λ new, (VStr old, VStr new)) <$> first_match old current.

(** A file that lies directly in the directory [dir]. *)
Definition directly_in (dir path : string) : Prop :=
  ∃ name, path = dir +:+ "/" +:+ name ∧ has_slash name = false.

(** What a rename does to one record. *)
Definition with_source (new_source : value) (r : IndexRecord) : IndexRecord :=
  {| rec_id := rec_id r;
     rec_document := rec_document r;
     rec_metadata := <["source" := new_source]> (rec_metadata r) |}.

(** The update call [update_source_in_db] issues for one record. *)
Definition update_call (new_source : value) (r : IndexRecord) : WriteCall :=
  Update (rec_id r) (<["source" := new_source]> (rec_metadata r)).

(** One turn of the loop of [update_source_in_db] on the collection. *)
Definition update_turn (old_source new_source : value)
    (col : list IndexRecord) (r : IndexRecord) : list IndexRecord :=
  if decide (source_of r = old_source)
  then (λ r', if decide (rec_id r' = rec_id r)
              then {| rec_id := rec_id r';
                      rec_document := rec_document r';
                      rec_metadata := <["source" := new_source]> (rec_metadata r) |}
              else r') <$> col
  else col.

(** *** More samples *)

(** Three objects on the heap; a chunk list refers to two of them. *)
Definition sample_heap : gmap nat Document :=
  <[7 := pdf_chunk "a.pdf" 0 "x"]>
    (<[3 := pdf_chunk "a.pdf" 0 "y"]> (<[5 := pdf_chunk "b.pdf" 0 "z"]> ∅)).

(** A corpus directory that holds the one file [a.pdf]. *)
Definition sample_corpus : Corpus :=
  {| listdir := ["a.pdf"; "notes.txt"];
     load_documents := [pdf_chunk "/data/a.pdf" 0 "first";
                        pdf_chunk "/data/a.pdf" 0 "second"] |}.

(** A store with a record that names no source. *)
Definition unsourced_index : Chroma :=
  {| collection := [indexed "/data/a.pdf" 0 0 "first";
                    mkRecord "x" "text" {["id" := VStr "x"]}];
     write_log := [] |}.

(** [os.path.abspath] in the working directory [cwd], on paths without
    [.], [..] and doubled slashes. *)
Definition abspath_in (cwd path : string) : string :=
  match path with
  | String "/" _ => path
  | _ => cwd +:+ "/" +:+ path
  end.

(** The corpus directory [data], configured by its relative path, with the
    one file [a.pdf]: the loader reports the file under the path it builds
    from the directory it is handed. *)
Definition relative_corpus : Corpus :=
  {| listdir := ["a.pdf"];
     load_documents := [pdf_chunk "data/a.pdf" 0 "first";
                        pdf_chunk "data/a.pdf" 0 "second"] |}.

(** A store whose first record carries, as its [id] metadata, the
    identifier of the second. *)
Definition mislabelled_index : Chroma :=
  {| collection :=
       [mkRecord "k1" "first"
          (<["id" := VStr "k2"]> {["source" := VStr "/data/a.pdf"]});
        mkRecord "k2" "one"
          (<["id" := VStr "k2"]> {["source" := VStr "/data/b.pdf"]})];
     write_log := [] |}.

(** A store with a record whose source is a number. *)
Definition numbered_index : Chroma :=
  {| collection :=
       [mkRecord "k1" "first" (<["id" := VStr "k1"]> {["source" := VInt 7]})];
     write_log := [] |}.

End populate_database.

(** ** [watcher.py]

    The supervisor is a sequential program that talks to the operating
    system: it starts the synchronisation subprocess and waits for its exit
    status, it spawns, signals and waits for the service process, and it is
    woken by file-system events.  It is embedded as a step function over the
    program points at which the outside world can be observed; the inputs
    are what the outside world contributes to a step.

    Two threads run the supervisor's code: [main], and the observer thread
    on which watchdog calls the handler.  While the handler runs, [main]
    sits in [observer.join()], so that one program point tells where both
    are; a [KeyboardInterrupt] that reaches [main] during a restart cycle
    ends [main] and leaves the handler running on its thread, which is what
    the Shutdown points stand for.  The observer thread is a daemon thread:
    the interpreter may end it at any of its steps once [main] has returned,
    which a run that stops there covers. *)

Module watcher.

Definition pid : Type := nat.

(** A watchdog [FileSystemEvent]. *)
Record Event : Type := mkEvent {
  is_directory : bool;
  event_type : string;
  src_path : string
}.

(** The guard of [on_any_event]: such events return at once. *)
Definition ignored (event : Event) : bool :=
  is_directory event
  || negb (bool_decide (event_type event ∈ ["created"; "modified"; "deleted"])).

Inductive Location : Type :=
| MainSync       (* main: subprocess.run(POPULATE_DB_COMMAND, check=True) *)
| MainSpawn      (* main: server_process = subprocess.Popen(SERVER_COMMAND) *)
| Watching       (* main: observer.join(), the handler is idle *)
| RestartEntry   (* restart_server: if server_process: ...terminate() *)
| RestartWait    (* restart_server: server_process.wait() *)
| RestartSync    (* restart_server: subprocess.run(POPULATE_DB_COMMAND, check=True) *)
| RestartSpawn   (* restart_server: server_process = subprocess.Popen(SERVER_COMMAND) *)
| ShutdownEntry  (* the four points of restart_server again, *)
| ShutdownWait   (* reached by the handler on the observer thread *)
| ShutdownSync   (* after main has returned on a KeyboardInterrupt *)
| ShutdownSpawn
| Exited.        (* main has returned and the handler is idle *)

#[global] Instance Location_eq_dec : EqDecision Location.
Proof. solve_decision. Defined.

(** [server_process] is the module-level handle; [live] are the service
    processes the operating system is running; [spawned] counts the
    [Popen] calls made so far and names the next process. *)
Record State : Type := mkState {
  pc : Location;
  server_process : option pid;
  live : list pid;
  spawned : nat
}.

Inductive Input : Type :=
| Tick                              (* the supervisor executes its next statement *)
| SyncDone (returncode : Z)         (* the synchronisation subprocess has exited *)
| SyncNotStarted                    (* subprocess.run could not start it *)
| FsEvent (event : Event)           (* the observer delivers an event *)
| ProcessExit (p : pid)             (* a service process exits *)
| Interrupt.                        (* KeyboardInterrupt reaches main *)

Definition initial : State :=
  {| pc := MainSync; server_process := None; live := []; spawned := 0 |}.

Definition goto (l : Location) (s : State) : State :=
  {| pc := l; server_process := server_process s;
     live := live s; spawned := spawned s |}.

(** [subprocess.run(..., check=True)] *)
Definition run_check (returncode : Z) : result unit :=
  if decide (returncode = 0%Z) then Ok tt
  else Raise (CalledProcessError returncode).

(** [server_process = subprocess.Popen(SERVER_COMMAND)] *)
Definition Popen (s : State) : State :=
  {| pc := Watching;
     server_process := Some (spawned s);
     live := spawned s :: live s;
     spawned := S (spawned s) |}.

(** [try: subprocess.run(...) except CalledProcessError: return], followed
    by the statement at [next]; [back] is where the [return] leads. *)
Definition after_sync (outcome : result unit) (next back : Location)
    (s : State) : State :=
  match outcome with
  | Ok _ => goto next s
  | Raise (CalledProcessError _) => goto back s
  | Raise _ => goto Exited s
  end.

(** [DataChangeHandler.on_any_event] *)
Definition on_any_event (event : Event) (s : State) : State :=
  if ignored event then s          (* return *)
  else goto RestartEntry s.        (* restart_server() *)

(** [restart_server], statement by statement. *)
Definition restart_server (s : State) (i : Input) : option State :=
  match pc s, i with
  | RestartEntry, Tick =>
      match server_process s with
      | Some _ => Some (goto RestartWait s)   (* server_process.terminate() *)
      | None => Some (goto RestartSync s)
      end
  | RestartWait, Tick =>
      match server_process s with
      | Some p =>
          (* wait() returns once the process has exited *)
          if decide (p ∈ live s) then None else Some (goto RestartSync s)
      | None => None
      end
  | RestartSync, SyncDone returncode =>
      Some (after_sync (run_check returncode) RestartSpawn Watching s)
  | RestartSync, SyncNotStarted =>
      Some (after_sync (Raise OSError) RestartSpawn Watching s)
  | RestartSpawn, Tick => Some (Popen s)
  (* the same statements after main has returned: the handler's return,
     and an exception that leaves it, end the observer thread *)
  | ShutdownEntry, Tick =>
      match server_process s with
      | Some _ => Some (goto ShutdownWait s)
      | None => Some (goto ShutdownSync s)
      end
  | ShutdownWait, Tick =>
      match server_process s with
      | Some p =>
          if decide (p ∈ live s) then None else Some (goto ShutdownSync s)
      | None => None
      end
  | ShutdownSync, SyncDone returncode =>
      Some (after_sync (run_check returncode) ShutdownSpawn Exited s)
  | ShutdownSync, SyncNotStarted =>
      Some (after_sync (Raise OSError) ShutdownSpawn Exited s)
  | ShutdownSpawn, Tick => Some (goto Exited (Popen s))
  | _, _ => None
  end.

(** [main], statement by statement; while it sits in [observer.join()] the
    observer thread runs the handler. *)
Definition main (s : State) (i : Input) : option State :=
  match pc s, i with
  | MainSync, SyncDone returncode =>
      Some (after_sync (run_check returncode) MainSpawn Exited s)
  | MainSync, SyncNotStarted =>
      Some (after_sync (Raise OSError) MainSpawn Exited s)
  | MainSpawn, Tick => Some (Popen s)
  | Watching, FsEvent event => Some (on_any_event event s)
  | _, _ => None
  end.

Definition step (s : State) (i : Input) : option State :=
  match i with
  | ProcessExit p =>
      if decide (p ∈ live s)
      then Some {| pc := pc s; server_process := server_process s;
                   live := filter (λ q, q ≠ p) (live s);
                   spawned := spawned s |}
      else None
  | Interrupt =>
      (* In observer.join(): observer.stop(); if server_process:
         server_process.terminate(); main returns.  Neither call waits for
         the handler, which goes on where it is.  Before observer.join()
         the exception leaves main at once. *)
      match pc s with
      | RestartEntry => Some (goto ShutdownEntry s)
      | RestartWait => Some (goto ShutdownWait s)
      | RestartSync => Some (goto ShutdownSync s)
      | RestartSpawn => Some (goto ShutdownSpawn s)
      | MainSync | MainSpawn | Watching => Some (goto Exited s)
      | ShutdownEntry | ShutdownWait | ShutdownSync | ShutdownSpawn | Exited => None
      end
  | _ =>
      match pc s with
      | RestartEntry | RestartWait | RestartSync | RestartSpawn
      | ShutdownEntry | ShutdownWait | ShutdownSync | ShutdownSpawn =>
          restart_server s i
      | _ => main s i
      end
  end.

Fixpoint run (s : State) (inputs : list Input) : option State :=
  match inputs with
  | [] => Some s
  | i :: rest =>
      match step s i with
      | Some s' => run s' rest
      | None => None
      end
  end.

(** *** Vocabulary for the properties of the supervisor *)

(** Program points at which no service process may be running. *)
Definition quiet (l : Location) : bool :=
  match l with
  | MainSync | MainSpawn | RestartSync | RestartSpawn
  | ShutdownSync | ShutdownSpawn => true
  | _ => false
  end.

Definition invariant (s : State) : Prop :=
  (live s = [] ∨ ∃ p, live s = [p] ∧ server_process s = Some p) ∧
  (quiet (pc s) = true → live s = []).

(** No service runs and none is about to be spawned. *)
Definition stopped (n : nat) (s : State) : Prop :=
  live s = [] ∧ spawned s = n ∧
  pc s ≠ MainSpawn ∧ pc s ≠ RestartSpawn ∧ pc s ≠ ShutdownSpawn.

Definition created (path : string) : Event :=
  {| is_directory := false; event_type := "created"; src_path := path |}.

(** *** Vocabulary for further properties of the supervisor *)

(** The synchronisation subprocess has exited with status zero. *)
Definition successful (i : Input) : bool :=
  match i with
  | SyncDone returncode => bool_decide (returncode = 0%Z)
  | _ => false
  end.

(** How many synchronisations of an input sequence succeeded. *)
Definition successes (inputs : list Input) : nat :=
  length (List.filter successful inputs).

(** The [Popen] calls made so far, counted with the one the program point
    is about to make. *)
Definition committed (s : State) : nat :=
  match pc s with
  | MainSpawn | RestartSpawn | ShutdownSpawn => S (spawned s)
  | _ => spawned s
  end.

(** Every spawn is paid for by a successful synchronisation: [k] of them
    have been seen. *)
Definition paid (k : nat) (s : State) : Prop :=
  match pc s with
  | Exited => spawned s ≤ k
  | _ => committed s = k
  end.

(** An input that reports the exit of a service process. *)
Definition is_exit (i : Input) : Prop := ∃ p, i = ProcessExit p.





(** What the outside contributes to a restart cycle that goes well: the
    old service process exits on [terminate()], if it is still running,
    and the synchronisation exits with status zero. *)
Definition good_cycle (s : State) (event : Event) : list Input :=
  match server_process s with
  | Some p =>
      if decide (p ∈ live s)
      then [FsEvent event; Tick; ProcessExit p; Tick; SyncDone 0; Tick]
      else [FsEvent event; Tick; Tick; SyncDone 0; Tick]
  | None => [FsEvent event; Tick; SyncDone 0; Tick]
  end.

(** An input that cannot start a restart cycle: anything but an event
    that passes the guard of [on_any_event]. *)
Definition no_change (i : Input) : Prop :=
  match i with
  | FsEvent event => ignored event = true
  | _ => True
  end.

(** The supervisor has not been through a restart cycle. *)
Definition first_service (s : State) : Prop :=
  match pc s with
  | MainSync | MainSpawn => spawned s = 0 ∧ live s = []
  | Watching | Exited => spawned s ≤ 1 ∧ live s ⊆ [0]
  | _ => False
  end.

(** A rename as watchdog reports it. *)
Definition moved (path : string) : Event :=
  {| is_directory := false; event_type := "moved"; src_path := path |}.

End watcher.

(** ** [fastapi_app.py]: the log store and the query endpoint *)

Module fastapi_app.

(** What [json.load] returns and [json.dump] accepts. *)
#[warnings="-register-all"]
Inductive json : Type :=
| JNull
| JBool (b : bool)
| JNumber (z : Z)
| JString (s : string)
| JList (items : list json)
| JDict (fields : list (string * json)).

(** [LOG_FILE] as [open] sees it: absent, not to be opened at all (a
    directory, no permission), open for reading only, or an ordinary file.
    These are the states the properties below speak of.  Outside them are a
    file whose bytes do not decode or whose nesting exceeds the recursion
    limit (reading then raises an exception the inner handler does not
    catch), a missing directory, and a write that fails after [open] has
    truncated the file. *)
Inductive file : Type :=
| Missing
| Unreadable
| ReadOnly (contents : string)
| Text (contents : string).

Record World : Type := mkWorld {
  log_file : file;
  console : list exn
}.

(** [open(LOG_FILE, "r")] and reading the whole file. *)
Definition open_read (f : file) : result string :=
  match f with
  | Missing => Raise FileNotFoundError
  | Unreadable => Raise OSError
  | ReadOnly contents | Text contents => Ok contents
  end.

(** [open(LOG_FILE, "w")] and writing the whole file. *)
Definition open_write (f : file) (contents : string) : result file :=
  match f with
  | Unreadable | ReadOnly _ => Raise OSError
  | Missing | Text _ => Ok (Text contents)
  end.

(** [logs.append(data)]: only a list has [append]. *)
Definition append (logs data : json) : result json :=
  match logs with
  | JList items => Ok (JList (items ++ [data]))
  | _ => Raise AttributeError
  end.

(** [try: body except classes: handler] *)
Definition try_except {A} (body : result A) (caught : exn → bool)
    (handler : exn → result A) : result A :=
  match body with
  | Ok a => Ok a
  | Raise e => if caught e then handler e else Raise e
  end.

Section Codec.

(** The JSON codec of the standard library; [None] stands for
    [json.JSONDecodeError]. *)
Variable json_loads : string → option json.
Variable json_dumps : json → string.

Definition json_load (contents : string) : result json :=
  match json_loads contents with
  | Some v => Ok v
  | None => Raise JSONDecodeError
  end.

(** The statements inside the outer [try]. *)
Definition log_to_json_body (f : file) (data : json) : result file :=
  logs ← try_except
            (contents ← open_read f; json_load contents)
            (λ e, bool_decide (e = FileNotFoundError ∨ e = JSONDecodeError))
            (λ _, Ok (JList []));
  logs ← append logs data;
  open_write f (json_dumps logs).

Definition log_to_json (w : World) (data : json) : result World :=
  try_except
    (f ← log_to_json_body (log_file w) data;
     Ok {| log_file := f; console := console w |})
    is_Exception
    (λ e, Ok {| log_file := log_file w; console := console w ++ [e] |}).

End Codec.

(** *** A sample codec and record *)

(** A stand-in codec for examples: it reads the empty array only and
    writes nothing but the number of entries of an array. *)
Definition sample_loads (contents : string) : option json :=
  if decide (contents = "[]") then Some (JList []) else None.

Definition sample_dumps (v : json) : string :=
  match v with
  | JList items => "[" +:+ pretty (length items) +:+ " entries]"
  | _ => "{}"
  end.

Definition sample_record : json :=
  JDict [("query_text", JString "what?"); ("response", JNull); ("error", JString "None")].

(** *** Successive calls *)

Section Logging.
Variable json_loads : string → option json.
Variable json_dumps : json → string.

(** One [log_to_json] call after the other, as successive requests make
    them. *)
Fixpoint log_all (w : World) (records : list json) : result World :=
  match records with
  | [] => Ok w
  | data :: rest => w ← log_to_json json_loads json_dumps w data; log_all w rest
  end.

(** The log file holds nothing yet, or the array [items]. *)
Definition holds (f : file) (items : list json) : Prop :=
  match f with
  | Missing => items = []
  | Text contents => json_loads contents = Some (JList items)
  | _ => False
  end.
End Logging.

(** A codec for examples that reads back the two arrays it is asked to. *)
Definition table_loads (contents : string) : option json :=
  if decide (contents = "[0 entries]") then Some (JList [])
  else if decide (contents = "[1 entries]") then Some (JList [sample_record])
  else None.

(** *** The query endpoint *)

(** [sep.join(parts)] *)
Fixpoint join (sep : string) (parts : list string) : string :=
  match parts with
  | [] => EmptyString
  | part :: rest =>
      match rest with
      | [] => part
      | _ :: _ => part +:+ sep +:+ join sep rest
      end
  end.

Definition newline : string := String "010"%char EmptyString.

(** The separator between the retrieved passages. *)
Definition separator : string := newline +:+ newline +:+ "---" +:+ newline +:+ newline.

(** A metadata value as [json.dump] writes it. *)
Definition json_of_value (v : value) : json :=
  match v with
  | VNone => JNull
  | VInt z => JNumber z
  | VStr s => JString s
  end.

(** [d.get(k)] on a JSON object. *)
Definition field (k : string) (v : json) : option json :=
  match v with
  | JDict fields => snd <$> List.find (λ kv, bool_decide (kv.1 = k)) fields
  | _ => None
  end.

(** The module-level state of the service: the log file and the console,
    the global [first_request], the number of clock readings taken so far,
    and the prompts the model has been invoked with. *)
Record Service : Type := mkService {
  world : World;
  first_request : bool;
  clock : nat;
  prompts : list string
}.

(** The global [change_made] is never assigned. *)
Definition change_made : string := EmptyString.

(** What a request ends with: the returned body, the [HTTPException] the
    handler raises, or an exception that escapes the handler. *)
Inductive outcome : Type :=
| Returned (body : json)
| HTTPException (status_code : nat) (detail : json)
| Uncaught (e : exn).

(** Statements that read and write the module-level state and may raise. *)
Definition action (A : Type) : Type := Service → result A * Service.

#[global] Instance action_ret : MRet action := λ A a s, (Ok a, s).
#[global] Instance action_bind : MBind action := λ A B k m s,
  match m s with
  | (Ok a, s') => k a s'
  | (Raise e, s') => (Raise e, s')
  end.

(** A call that touches nothing of the state. *)
Definition external {A} (r : result A) : action A := λ s, (r, s).

Definition get_first_request : action bool := λ s, (Ok (first_request s), s).

Definition set_first_request (b : bool) : action unit := λ s,
  (Ok tt, {| world := world s; first_request := b;
             clock := clock s; prompts := prompts s |}).

(** What the endpoint calls and does not define: the JSON codec; the
    floating-point numbers with the readings of [time.time()] (one per
    call), subtraction, the truth value of a float, [round(x, 3)] and the
    JSON number of a float; the vector store, the prompt template, the
    language model and [str] on exceptions. *)
Record Externals : Type := mkExternals {
  loads : string → option json;
  dumps : json → string;
  float : Type;
  clock_reading : nat → float;
  fsub : float → float → float;
  truth : float → bool;
  round3 : float → float;
  json_number : float → json;
  similarity_search_with_score :
    string → result (list (populate_database.Document * float));
  format_prompt : string → string → string;
  invoke : string → result string;
  str : exn → string
}.

Section Service.

Variable ext : Externals.

(** [time.time()] *)
Definition time_time : action (float ext) := λ s,
  (Ok (clock_reading ext (clock s)),
   {| world := world s; first_request := first_request s;
      clock := S (clock s); prompts := prompts s |}).

(** [model.invoke(prompt)] *)
Definition model_invoke (prompt : string) : action string := λ s,
  (invoke ext prompt,
   {| world := world s; first_request := first_request s;
      clock := clock s; prompts := prompts s ++ [prompt] |}).

(** [log_to_json(data)] on the module-level log file. *)
Definition call_log_to_json (data : json) : action unit := λ s,
  match log_to_json (loads ext) (dumps ext) (world s) data with
  | Ok w => (Ok tt, {| world := w; first_request := first_request s;
                       clock := clock s; prompts := prompts s |})
  | Raise e => (Raise e, s)
  end.

(** [round(t, 3) if t else None] *)
Definition rounded (t : option (float ext)) : json :=
  match t with
  | Some x => if truth ext x then json_number ext (round3 ext x) else JNull
  | None => JNull
  end.

(** [error or "None"] *)
Definition error_or_None (error : option string) : string :=
  match error with
  | Some (String c rest) => String c rest
  | _ => "None"
  end.

Definition create_log_entry (first_request : bool) (query_text : string)
    (response : option string) (sources : option (list value))
    (processing_time search_time model_time : option (float ext))
    (error : option string) : json :=
  JDict [("query_text", JString query_text);
         ("response", from_option JString JNull response);
         ("sources", from_option (λ l, JList (json_of_value <$> l)) JNull sources);
         ("total_time_seconds", rounded processing_time);
         ("search_time_seconds", rounded search_time);
         ("model_time_seconds", rounded model_time);
         ("first_request", JBool first_request);
         ("change_made", JString change_made);
         ("error", JString (error_or_None error))].

(** The prompt: the retrieved passages, joined, and the question. *)
Definition prompt_of (results : list (populate_database.Document * float ext))
    (query_text : string) : string :=
  let context_text :=
    join separator ((λ r, populate_database.page_content r.1) <$> results) in
  format_prompt ext context_text query_text.

(** The statements inside the [try] of [query_rag]. *)
Definition query_rag_try (query_text : string) (start_time : float ext) : action json :=
  search_start ← time_time;
  results ← external (similarity_search_with_score ext query_text);
  search_end ← time_time;
  let search_time := fsub ext search_end search_start in
  let prompt := prompt_of results query_text in
  model_start ← time_time;
  response_text ← model_invoke prompt;
  model_end ← time_time;
  let model_time := fsub ext model_end model_start in
  let sources := (λ r, get (populate_database.metadata r.1) "id") <$> results in
  end_time ← time_time;
  let processing_time := fsub ext end_time start_time in
  first ← get_first_request;
  let entry := create_log_entry first query_text (Some response_text) (Some sources)
                 (Some processing_time) (Some search_time) (Some model_time) None in
  call_log_to_json entry;;
  set_first_request false;;
  mret entry.

(** The statements of the handler, up to the [raise]; the value is the
    detail of the [HTTPException]. *)
Definition query_rag_except (query_text : string) (start_time : float ext) (e : exn)
    : action json :=
  end_time ← time_time;
  let processing_time := fsub ext end_time start_time in
  first ← get_first_request;
  let error_entry := create_log_entry first query_text None None
                       (Some processing_time) None None (Some (str ext e)) in
  call_log_to_json error_entry;;
  set_first_request false;;
  mret error_entry.

Definition query_rag (query_text : string) (s : Service) : outcome * Service :=
  match time_time s with
  | (Raise e, s) => (Uncaught e, s)
  | (Ok start_time, s) =>
      match query_rag_try query_text start_time s with
      | (Ok entry, s) => (Returned entry, s)
      | (Raise e, s) =>
          if is_Exception e
          then match query_rag_except query_text start_time e s with
               | (Ok error_entry, s) => (HTTPException 500 error_entry, s)
               | (Raise e', s) => (Uncaught e', s)
               end
          else (Uncaught e, s)
      end
  end.

(** The requests of a list, served one after the other. *)
Fixpoint serve (queries : list string) (s : Service) : list outcome * Service :=
  match queries with
  | [] => ([], s)
  | query_text :: rest =>
      let '(out, s) := query_rag query_text s in
      let '(outs, s) := serve rest s in
      (out :: outs, s)
  end.

End Service.

(** Externals for examples: integer clock readings, a store that fails on
    one query and finds one passage for every other, a model that repeats
    its prompt. *)
Definition sample_externals : Externals :=
  {| loads := table_loads;
     dumps := sample_dumps;
     float := Z;
     clock_reading := Z.of_nat;
     fsub := Z.sub;
     truth := λ x, negb (x =? 0)%Z;
     round3 := λ x, x;
     json_number := JNumber;
     similarity_search_with_score := λ query_text,
       if decide (query_text = "fail") then Raise ValueError
       else Ok [(populate_database.mkDocument "passage"
                   {["id" := VStr "a.pdf:0:0"]}, 1%Z)];
     format_prompt := λ context question, context +:+ "?" +:+ question;
     invoke := λ prompt, Ok prompt;
     str := λ _, "store is down" |}.

Definition sample_service : Service :=
  {| world := {| log_file := Missing; console := [] |};
     first_request := true; clock := 0; prompts := [] |}.

(** The record a request has logged, read off its outcome. *)
Definition logged (out : outcome) : option json :=
  match out with
  | Returned body => Some body
  | HTTPException _ detail => Some detail
  | Uncaught _ => None
  end.

End fastapi_app.

(** * Properties *)

(** ** Chunk identity *)

Module populate_database_proofs.
Import populate_database.

Lemma append_nil_l s : EmptyString +:+ s = s.
Proof. done. Qed.

Lemma append_cons c s t : String c s +:+ t = String c (s +:+ t).
Proof. done. Qed.

Lemma has_colon_app s d : has_colon (s +:+ String ":" d) = true.
Proof.
  induction s as [|c s IH]; [done|].
  rewrite append_cons. simpl. rewrite IH. apply orb_true_r.
Qed.

(** A string is split in one way only at its last colon. *)
Lemma append_colon_inj s1 s2 d1 d2 :
  has_colon d1 = false → has_colon d2 = false →
  s1 +:+ String ":" d1 = s2 +:+ String ":" d2 → s1 = s2 ∧ d1 = d2.
Proof.
  intros H1 H2. revert s2.
  induction s1 as [|c s1 IH]; intros [|c' s2];
    rewrite ?append_nil_l, ?append_cons; intros Heq.
  - by simplify_eq.
  - simplify_eq. by rewrite has_colon_app in H1.
  - simplify_eq. by rewrite has_colon_app in H2.
  - simplify_eq. destruct (IH s2) as [-> ->]; done.
Qed.

Lemma pretty_N_go_colon x s :
  has_colon s = false → has_colon (pretty_N_go x s) = false.
Proof.
  revert s. induction (N.lt_wf_0 x) as [x _ IH]; intros s Hs.
  assert (x = 0 ∨ 0 < x)%N as [->|?] by lia.
  - by rewrite pretty_N_go_0.
  - rewrite pretty_N_go_step by done. apply IH.
    { by apply N.div_lt. }
    simpl. rewrite Hs. unfold pretty_N_char. by repeat case_match.
Qed.

Lemma pretty_N_colon (x : N) : has_colon (pretty x) = false.
Proof.
  unfold pretty, pretty_N. case_decide; [done|]. by apply pretty_N_go_colon.
Qed.

Lemma pretty_nat_colon (n : nat) : has_colon (pretty n) = false.
Proof. apply pretty_N_colon. Qed.

Lemma pretty_Z_colon (z : Z) : has_colon (pretty z) = false.
Proof.
  destruct z as [|p|p]; [done| |].
  - apply pretty_N_colon.
  - change (pretty (Z.neg p)) with ("-" +:+ pretty (N.pos p)).
    rewrite append_cons, append_nil_l. simpl. apply pretty_N_colon.
Qed.

Lemma page_id_inj c1 c2 :
  loader_typed c1 → loader_typed c2 →
  page_id c1 = page_id c2 → page_key c1 = page_key c2.
Proof.
  intros (s1 & p1 & H1) (s2 & p2 & H2). rewrite H1, H2.
  unfold page_key in H1, H2. unfold page_id.
  injection H1 as -> ->. injection H2 as -> ->. simpl. intros Heq.
  apply append_colon_inj in Heq as [-> Hp]; auto using pretty_Z_colon.
  by apply (inj pretty) in Hp as ->.
Qed.

Lemma page_key_page_id c1 c2 : page_key c1 = page_key c2 → page_id c1 = page_id c2.
Proof. unfold page_key, page_id. by intros [= -> ->]. Qed.

Lemma chunk_id_inj (p1 p2 : string) (n1 n2 : nat) :
  p1 +:+ ":" +:+ pretty n1 = p2 +:+ ":" +:+ pretty n2 → p1 = p2 ∧ n1 = n2.
Proof.
  intros Heq. apply append_colon_inj in Heq as [-> Hn]; auto using pretty_nat_colon.
  by apply (inj pretty) in Hn as ->.
Qed.

(** *** The loop and its state *)

Lemma loop_app last n pre post :
  calculate_chunk_ids_loop last n (pre ++ post) =
  calculate_chunk_ids_loop last n pre ++
  calculate_chunk_ids_loop (foldl advance (last, n) pre).1
                           (foldl advance (last, n) pre).2 post.
Proof.
  revert last n. induction pre as [|c pre IH]; intros last n; simpl; [done|].
  f_equal. by rewrite IH.
Qed.

Lemma loop_length last n chunks :
  length (calculate_chunk_ids_loop last n chunks) = length chunks.
Proof. revert last n. induction chunks; intros; simpl; auto. Qed.

Lemma loop_lookup last n chunks i chunk :
  chunks !! i = Some chunk →
  calculate_chunk_ids_loop last n chunks !! i =
  Some (set_metadata chunk "id"
          (VStr (page_id chunk +:+ ":" +:+
                 pretty (foldl advance (last, n) (take (S i) chunks)).2))).
Proof.
  intros Hi.
  rewrite <- (take_drop_middle chunks i chunk Hi) at 1.
  rewrite loop_app. rewrite lookup_app_r; rewrite loop_length, length_take_le;
    try (apply lookup_lt_Some in Hi; lia).
  rewrite Nat.sub_diag. simpl.
  erewrite take_S_r by done. by rewrite foldl_app.
Qed.

(** After [i + 1] turns the loop variables hold the page id of chunk [i]
    and its run-based sequence number. *)
Lemma state_after chunks i chunk :
  chunks !! i = Some chunk →
  foldl advance (None, 0) (take (S i) chunks) =
  (Some (page_id chunk), sequence_at (page_id <$> chunks) i).
Proof.
  revert chunk. induction i as [|i IH]; intros chunk Hi.
  - destruct chunks; simplify_eq/=. by unfold advance.
  - destruct (chunks !! i) as [prev|] eqn:Hprev.
    2:{ apply lookup_ge_None in Hprev. apply lookup_lt_Some in Hi. lia. }
    erewrite take_S_r by done. rewrite foldl_app. rewrite (IH prev eq_refl).
    simpl. unfold advance at 1. simpl. f_equal.
    rewrite !list_lookup_fmap, Hi, Hprev. simpl.
    repeat case_decide; simplify_eq; try done; try lia.
Qed.

Lemma calculate_chunk_ids_lookup chunks i chunk :
  chunks !! i = Some chunk →
  calculate_chunk_ids chunks !! i =
  Some (set_metadata chunk "id"
          (VStr (page_id chunk +:+ ":" +:+
                 pretty (sequence_at (page_id <$> chunks) i)))).
Proof.
  intros Hi. unfold calculate_chunk_ids.
  by rewrite (loop_lookup _ _ _ _ _ Hi), (state_after _ _ _ Hi).
Qed.

Lemma calculate_chunk_ids_length chunks :
  length (calculate_chunk_ids chunks) = length chunks.
Proof. apply loop_length. Qed.

Lemma chunk_ids_lookup chunks i chunk :
  chunks !! i = Some chunk →
  chunk_ids (calculate_chunk_ids chunks) !! i =
  Some (Some (VStr (page_id chunk +:+ ":" +:+
                    pretty (sequence_at (page_id <$> chunks) i)))).
Proof.
  intros Hi. unfold chunk_ids.
  rewrite list_lookup_fmap, (calculate_chunk_ids_lookup _ _ _ Hi). simpl.
  by rewrite lookup_insert_eq.
Qed.

Lemma chunk_ids_lookup_inv chunks i x :
  chunk_ids (calculate_chunk_ids chunks) !! i = Some x →
  ∃ chunk, chunks !! i = Some chunk ∧
    x = Some (VStr (page_id chunk +:+ ":" +:+
                    pretty (sequence_at (page_id <$> chunks) i))).
Proof.
  intros Hx.
  destruct (chunks !! i) as [chunk|] eqn:Hi.
  - exists chunk. split; [done|]. rewrite (chunk_ids_lookup _ _ _ Hi) in Hx. congruence.
  - apply lookup_ge_None in Hi. apply lookup_lt_Some in Hx.
    unfold chunk_ids in Hx. rewrite length_fmap, calculate_chunk_ids_length in Hx. lia.
Qed.

(** *** Runs *)

Lemma sequence_at_S pids j :
  pids !! S j = pids !! j → sequence_at pids (S j) = S (sequence_at pids j).
Proof. intros H. simpl. by rewrite decide_True. Qed.


(** Going back [k] positions inside a run. *)
Lemma sequence_run_back pids i k :
  k ≤ sequence_at pids i →
  k ≤ i ∧ pids !! (i - k) = pids !! i ∧
  sequence_at pids (i - k) = sequence_at pids i - k.
Proof.
  induction k as [|k IH]; intros Hk.
  - rewrite !Nat.sub_0_r. split; [lia|]. split; [done|lia].
  - destruct IH as (Hle & Hp & Hs); [lia|].
    destruct (i - k) as [|j] eqn:Hj.
    { simpl in Hs. lia. }
    simpl in Hs. case_decide as Hd; [|lia].
    replace (i - S k) with j by lia.
    split; [lia|]. split; [congruence|lia].
Qed.

(** Going forward [d] positions inside a run. *)
Lemma sequence_run_forward pids i d :
  (∀ m, i ≤ m < i + d → pids !! S m = pids !! m) →
  sequence_at pids (i + d) = sequence_at pids i + d.
Proof.
  induction d as [|d IH]; intros H.
  - by rewrite !Nat.add_0_r.
  - rewrite Nat.add_succ_r, sequence_at_S by (apply H; lia).
    rewrite IH by (intros; apply H; lia). lia.
Qed.

(** *** Uniqueness of ids and grouping *)

Lemma same_id_later_impossible chunks i j x :
  Forall loader_typed chunks → grouped chunks → i < j →
  chunk_ids (calculate_chunk_ids chunks) !! i = Some x →
  chunk_ids (calculate_chunk_ids chunks) !! j = Some x → False.
Proof.
  intros Hty Hgr Hij Hi Hj.
  apply chunk_ids_lookup_inv in Hi as (ci & Hci & ->).
  apply chunk_ids_lookup_inv in Hj as (cj & Hcj & Heq).
  simplify_eq. apply chunk_id_inj in Heq as [Hpid Hseq].
  rewrite Forall_lookup in Hty.
  assert (page_key ci = page_key cj) as Hkey by (apply page_id_inj; eauto).
  assert (∀ m cm, i ≤ m ≤ j → chunks !! m = Some cm → page_id cm = page_id ci) as Hrun.
  { intros m cm Hm Hcm.
    destruct (decide (m = i)) as [->|]; [congruence|].
    destruct (decide (m = j)) as [->|]; [congruence|].
    apply page_key_page_id. eapply (Hgr i m j); eauto. lia. }
  pose proof (sequence_run_forward (page_id <$> chunks) i (j - i)) as Hfw.
  replace (i + (j - i)) with j in Hfw by lia.
  rewrite Hfw in Hseq; [lia|].
  intros m Hm. rewrite !list_lookup_fmap.
  destruct (chunks !! m) as [cm|] eqn:Hcm.
  2:{ apply lookup_ge_None in Hcm. apply lookup_lt_Some in Hcj. lia. }
  destruct (chunks !! S m) as [cm'|] eqn:Hcm'.
  2:{ apply lookup_ge_None in Hcm'. apply lookup_lt_Some in Hcj. lia. }
  simpl. f_equal. rewrite (Hrun m cm), (Hrun (S m) cm'); auto; lia.
Qed.

Lemma grouped_unique_ids chunks :
  Forall loader_typed chunks → grouped chunks →
  NoDup (chunk_ids (calculate_chunk_ids chunks)).
Proof.
  intros Hty Hgr. apply NoDup_alt. intros i j x Hi Hj.
  destruct (Nat.lt_trichotomy i j) as [?|[?|?]]; [|done|];
    exfalso; eauto using same_id_later_impossible.
Qed.

(** The first chunk of the run that contains position [i] carries the
    sequence number 0. *)
Lemma run_start chunks i ci :
  chunks !! i = Some ci →
  let a := i - sequence_at (page_id <$> chunks) i in
  a ≤ i ∧
  chunk_ids (calculate_chunk_ids chunks) !! a =
    Some (Some (VStr (page_id ci +:+ ":" +:+ pretty 0))) ∧
  ∀ m cm, a ≤ m ≤ i → chunks !! m = Some cm → page_id cm = page_id ci.
Proof.
  intros Hi a.
  pose proof (sequence_run_back (page_id <$> chunks) i) as Hback.
  destruct (Hback (sequence_at (page_id <$> chunks) i)) as (Hle & Hp & Hs); [done|].
  fold a in Hp, Hs. rewrite !list_lookup_fmap, Hi in Hp.
  destruct (chunks !! a) as [ca|] eqn:Ha; [|done].
  simpl in Hp. injection Hp as Hp.
  split; [lia|]. split.
  - rewrite (chunk_ids_lookup _ _ _ Ha), Hs, Nat.sub_diag. by rewrite Hp.
  - intros m cm Hm Hcm.
    destruct (Hback (i - m)) as (_ & Hp' & _); [lia|].
    replace (i - (i - m)) with m in Hp' by lia.
    rewrite !list_lookup_fmap, Hi, Hcm in Hp'. by simplify_eq/=.
Qed.

(** A pair that comes back after another pair starts a second run, and both
    runs open with the same id. *)
Lemma ungrouped_duplicate chunks i m j ci cm cj :
  Forall loader_typed chunks →
  i < m < j →
  chunks !! i = Some ci → chunks !! m = Some cm → chunks !! j = Some cj →
  page_key ci = page_key cj → page_key cm ≠ page_key ci →
  ∃ a b x, a < b ∧
    chunk_ids (calculate_chunk_ids chunks) !! a = Some x ∧
    chunk_ids (calculate_chunk_ids chunks) !! b = Some x.
Proof.
  intros Hty Himj Hi Hm Hj Hkey Hne.
  rewrite Forall_lookup in Hty.
  destruct (run_start chunks i ci Hi) as (Ha & Hida & _).
  destruct (run_start chunks j cj Hj) as (Hb & Hidb & Hrun).
  exists (i - sequence_at (page_id <$> chunks) i),
         (j - sequence_at (page_id <$> chunks) j),
         (Some (VStr (page_id ci +:+ ":" +:+ pretty 0))).
  split; [|split; [exact Hida|]].
  - destruct (decide (m < j - sequence_at (page_id <$> chunks) j)); [lia|].
    exfalso. apply Hne. rewrite Hkey. apply page_id_inj; eauto.
    apply (Hrun m cm); [lia|done].
  - rewrite Hidb. by rewrite (page_key_page_id _ _ Hkey).
Qed.

Lemma unique_ids_grouped chunks :
  Forall loader_typed chunks →
  NoDup (chunk_ids (calculate_chunk_ids chunks)) → grouped chunks.
Proof.
  intros Hty Hnd i m j ci cm cj Himj Hi Hm Hj Hkey.
  destruct (decide (page_key cm = page_key ci)) as [|Hne]; [done|].
  destruct (ungrouped_duplicate chunks i m j ci cm cj)
    as (a & b & x & Hab & Hxa & Hxb); auto.
  rewrite NoDup_alt in Hnd. specialize (Hnd a b x Hxa Hxb). lia.
Qed.

Lemma page_id_of_key (chunks : list Document) :
  page_id <$> chunks =
  (λ k : value * value, format k.1 +:+ ":" +:+ format k.2) <$> (page_key <$> chunks).
Proof. by rewrite <- list_fmap_compose. Qed.

(** *** The claims on [calculate_chunk_ids] *)


(** C8.  The ids depend on nothing but the sequence of [(source, page)]
    pairs: two chunk sequences that agree on it, in particular two runs over
    the same chunk sequence, get the same ids position by position, hence
    the same multiset of ids. *)
Theorem chunk_ids_deterministic (chunks1 chunks2 : list Document) :
  page_key <$> chunks1 = page_key <$> chunks2 →
  chunk_ids (calculate_chunk_ids chunks1) = chunk_ids (calculate_chunk_ids chunks2) ∧
  chunk_ids (calculate_chunk_ids chunks1) ≡ₚ chunk_ids (calculate_chunk_ids chunks2).
Proof.
  intros Hkeys.
  assert (chunk_ids (calculate_chunk_ids chunks1)
          = chunk_ids (calculate_chunk_ids chunks2)) as Heq; [|by rewrite Heq].
  assert (page_id <$> chunks1 = page_id <$> chunks2) as Hpids
    by (by rewrite !page_id_of_key, Hkeys).
  apply list_eq. intros i.
  pose proof (f_equal (λ l, l !! i) Hkeys) as Hi. simpl in Hi.
  rewrite !list_lookup_fmap in Hi.
  destruct (chunks1 !! i) as [c1|] eqn:H1, (chunks2 !! i) as [c2|] eqn:H2;
    try discriminate Hi.
  - simpl in Hi. apply (inj Some) in Hi.
    rewrite (chunk_ids_lookup _ _ _ H1), (chunk_ids_lookup _ _ _ H2), Hpids.
    by rewrite (page_key_page_id c1 c2 Hi).
  - apply lookup_ge_None in H1, H2.
    rewrite !(proj2 (lookup_ge_None _ _)); [done|..];
      unfold chunk_ids; rewrite length_fmap, calculate_chunk_ids_length; lia.
Qed.

Lemma chunk_ids_deterministic_witness :
  chunk_ids (calculate_chunk_ids [pdf_chunk "a.pdf" 0 "first text"; pdf_chunk "a.pdf" 0 "more"])
  = chunk_ids (calculate_chunk_ids
      [set_metadata (pdf_chunk "a.pdf" 0 "first text") "id" (VStr "stale");
       pdf_chunk "a.pdf" 0 "other text"]).
Proof.
  apply (chunk_ids_deterministic
           [pdf_chunk "a.pdf" 0 "first text"; pdf_chunk "a.pdf" 0 "more"]
           [set_metadata (pdf_chunk "a.pdf" 0 "first text") "id" (VStr "stale");
            pdf_chunk "a.pdf" 0 "other text"]).
  vm_compute. reflexivity.
Defined.

(** C10.  A chunk sequence in which [("a.pdf", 0)] comes back after a chunk
    of [("b.pdf", 0)] gets the id ["a.pdf:0:0"] twice; and for the metadata
    the loader attaches, the ids are pairwise distinct exactly when the
    chunks arrive grouped by [(source, page)]. *)
Theorem duplicate_ids_iff_not_grouped :
  (∃ chunks a b ca cb,
     Forall loader_typed chunks ∧ ¬ grouped chunks ∧ a ≠ b ∧
     calculate_chunk_ids chunks !! a = Some ca ∧
     calculate_chunk_ids chunks !! b = Some cb ∧
     page_content ca ≠ page_content cb ∧
     metadata ca !! "id" = Some (VStr "a.pdf:0:0") ∧
     metadata cb !! "id" = Some (VStr "a.pdf:0:0")) ∧
  (∀ chunks, Forall loader_typed chunks →
     (NoDup (chunk_ids (calculate_chunk_ids chunks)) ↔ grouped chunks)).
Proof.
  split.
  - exists [pdf_chunk "a.pdf" 0 "x"; pdf_chunk "b.pdf" 0 "y"; pdf_chunk "a.pdf" 0 "z"].
    eexists 0, 2, _, _.
    split; [repeat constructor; by eexists _, _|].
    split.
    { intros Hgr.
      specialize (Hgr 0 1 2 _ _ _ ltac:(lia) eq_refl eq_refl eq_refl eq_refl).
      vm_compute in Hgr. discriminate. }
    split; [done|].
    split; [vm_compute; reflexivity|]. split; [vm_compute; reflexivity|].
    split; [done|]. split; vm_compute; reflexivity.
  - intros chunks Hty. split;
      eauto using unique_ids_grouped, grouped_unique_ids.
Qed.

(** *** Assignment in place *)

Lemma in_place_other last n refs (heap : gmap nat Document) r :
  r ∉ refs → calculate_chunk_ids_in_place last n refs heap !! r = heap !! r.
Proof.
  revert last n heap. induction refs as [|ref refs IH]; intros last n heap Hr; [done|].
  apply not_elem_of_cons in Hr as [Hne Hr]. simpl.
  destruct (heap !! ref) as [chunk|] eqn:Href; [|done].
  rewrite IH by done. by rewrite lookup_insert_ne.
Qed.

Lemma lookups_insert_other (heap : gmap nat Document) ref x refs chunks :
  ref ∉ refs →
  Forall2 (λ r chunk, heap !! r = Some chunk) refs chunks →
  Forall2 (λ r chunk, <[ref := x]> heap !! r = Some chunk) refs chunks.
Proof.
  intros Hnotin Hrefs. induction Hrefs as [|r c refs chunks Hr Hrefs IH]; [constructor|].
  apply not_elem_of_cons in Hnotin as [Hne Hnotin].
  constructor; [by rewrite lookup_insert_ne|auto].
Qed.

(** When every position of the list refers to an object of its own, as in
    the list the splitter returns, the objects end up as the list-to-list
    function says. *)
Lemma in_place_agrees last n refs (heap : gmap nat Document) chunks :
  NoDup refs →
  Forall2 (λ ref chunk, heap !! ref = Some chunk) refs chunks →
  Forall2 (λ ref chunk,
             calculate_chunk_ids_in_place last n refs heap !! ref = Some chunk)
          refs (calculate_chunk_ids_loop last n chunks).
Proof.
  intros Hnd Hrefs. revert last n heap chunks Hnd Hrefs.
  induction refs as [|ref refs IH]; intros last n heap chunks Hnd Hrefs.
  - apply Forall2_nil_inv_l in Hrefs as ->. constructor.
  - apply Forall2_cons_inv_l in Hrefs as (chunk & rest & Href & Hrest & ->).
    apply NoDup_cons in Hnd as [Hnotin Hnd].
    simpl. rewrite Href. constructor.
    + rewrite in_place_other by done. apply lookup_insert_eq.
    + apply IH; [done|]. by apply lookups_insert_other.
Qed.

(** *** The order in which the files are loaded *)

Lemma loop_reset last n chunks :
  (∀ c, head chunks = Some c → last ≠ Some (page_id c)) →
  calculate_chunk_ids_loop last n chunks = calculate_chunk_ids_loop None 0 chunks.
Proof.
  destruct chunks as [|c chunks]; [done|]. intros Hhead. simpl.
  by rewrite decide_False by (intros Heq; by apply (Hhead c)).
Qed.

Lemma advance_last st (block : list Document) :
  (foldl advance st block).1 =
  match last block with
  | Some c => Some (page_id c)
  | None => st.1
  end.
Proof.
  induction block as [|c block IH] using rev_ind; [done|].
  by rewrite foldl_app, last_snoc.
Qed.

Lemma head_concat_elem (blocks : list (list Document)) c :
  head (concat blocks) = Some c → ∃ block, block ∈ blocks ∧ c ∈ block.
Proof.
  intros Hhead. apply head_Some_elem_of in Hhead.
  induction blocks as [|block blocks IH]; cbn [concat] in Hhead.
  - by apply elem_of_nil in Hhead.
  - apply elem_of_app in Hhead as [Hc|Hc].
    + exists block. split; [by left|done].
    + destruct (IH Hc) as (block' & ? & ?). exists block'. split; [by right|done].
Qed.

Lemma calculate_chunk_ids_concat blocks :
  separated blocks →
  calculate_chunk_ids (concat blocks) = concat (calculate_chunk_ids <$> blocks).
Proof.
  induction blocks as [|block rest IH]; [done|]. intros [Hsep Hrest].
  cbn [concat]. rewrite fmap_cons. cbn [concat]. rewrite <- IH by done.
  unfold calculate_chunk_ids at 1. rewrite loop_app. f_equal.
  apply loop_reset. intros c' Hhead. rewrite advance_last.
  destruct (last block) as [c|] eqn:Hlast; [|done].
  intros [= Heq]. apply head_concat_elem in Hhead as (block' & Hb' & Hc').
  apply (Hsep c c' block'); auto.
  apply last_Some in Hlast as [l' ->]. apply elem_of_app. right. by left.
Qed.

Lemma concat_Permutation {A} (ls ks : list (list A)) :
  ls ≡ₚ ks → concat ls ≡ₚ concat ks.
Proof.
  induction 1 as [|l ls ks _ IH|l k ls|ls ks ms _ IH1 _ IH2]; cbn [concat].
  - done.
  - by rewrite IH.
  - rewrite !app_assoc. by rewrite (Permutation_app_comm l k).
  - by etrans.
Qed.

Lemma separated_Permutation blocks1 blocks2 :
  blocks1 ≡ₚ blocks2 → separated blocks1 → separated blocks2.
Proof.
  induction 1 as [|b bs1 bs2 Hperm IH|b1 b2 bs|bs1 bs2 bs3 _ IH1 _ IH2]; simpl.
  - done.
  - intros [Hsep Hrest]. split; [|auto].
    intros c c' block' Hc Hb' Hc'. apply (Hsep c c' block'); auto. by rewrite Hperm.
  - intros (H2 & H1 & Hrest). repeat split; [| |done].
    + intros c c' block' Hc Hb' Hc'.
      apply elem_of_cons in Hb' as [->|Hb'].
      * intros Heq. symmetry in Heq. revert Heq. apply (H2 c' c b1); auto. by left.
      * apply (H1 c c' block'); auto.
    + intros c c' block' Hc Hb' Hc'. apply (H2 c c' block'); auto. by right.
  - auto.
Qed.

(** Loading the files in another order permutes the ids: the multiset of
    ids does not depend on the order of the directory listing. *)
Lemma chunk_ids_file_order blocks1 blocks2 :
  blocks1 ≡ₚ blocks2 → separated blocks1 →
  chunk_ids (calculate_chunk_ids (concat blocks1)) ≡ₚ
  chunk_ids (calculate_chunk_ids (concat blocks2)).
Proof.
  intros Hperm Hsep.
  rewrite !calculate_chunk_ids_concat by eauto using separated_Permutation.
  unfold chunk_ids. apply fmap_Permutation, concat_Permutation.
  by apply fmap_Permutation.
Qed.

(** ** The index writer *)

Lemma calculate_chunk_ids_identified chunks :
  Forall identified (calculate_chunk_ids chunks).
Proof.
  apply Forall_lookup. intros i c Hc.
  destruct (chunks !! i) as [chunk|] eqn:Hi.
  - rewrite (calculate_chunk_ids_lookup _ _ _ Hi) in Hc. simplify_eq.
    eexists. apply lookup_insert_eq.
  - apply lookup_ge_None in Hi. apply lookup_lt_Some in Hc.
    rewrite calculate_chunk_ids_length in Hc. lia.
Qed.

Lemma identified_getitem chunk :
  identified chunk → getitem (metadata chunk) "id" = Ok (VStr (id_string chunk)).
Proof.
  intros [id Hid]. unfold getitem, id_string, get. by rewrite Hid.
Qed.

Lemma identified_get chunk :
  identified chunk → get (metadata chunk) "id" = VStr (id_string chunk).
Proof.
  intros [id Hid]. unfold id_string, get. by rewrite Hid.
Qed.

Lemma select_new_chunks_filter existing_ids chunks :
  Forall identified chunks →
  select_new_chunks existing_ids chunks = Ok (filter (is_new existing_ids) chunks).
Proof.
  induction 1 as [|c cs Hc Hcs IH]; [done|].
  simpl. rewrite (identified_getitem _ Hc). simpl. rewrite IH. simpl.
  rewrite filter_cons.
  assert (is_new existing_ids c ↔ VStr (id_string c) ∉ existing_ids) as Hnew
    by (unfold is_new; by rewrite (identified_get _ Hc)).
  destruct (decide (VStr (id_string c) ∉ existing_ids)),
           (decide (is_new existing_ids c)); tauto.
Qed.

Lemma comprehension_ids batch :
  Forall identified batch →
  comprehension (λ chunk, getitem (metadata chunk) "id") batch
  = Ok (VStr <$> (id_string <$> batch)).
Proof.
  induction 1 as [|c cs Hc Hcs IH]; [done|].
  rewrite !fmap_cons. cbn [comprehension].
  rewrite (identified_getitem _ Hc). cbn [mbind result_bind]. by rewrite IH.
Qed.

Lemma comprehension_as_str (l : list string) :
  comprehension as_str (VStr <$> l) = Ok l.
Proof.
  induction l as [|x l IH]; [done|].
  rewrite fmap_cons. cbn [comprehension as_str mbind result_bind]. by rewrite IH.
Qed.

Lemma db_add_documents_identified db batch :
  Forall identified batch →
  db_add_documents db batch (VStr <$> (id_string <$> batch)) =
  Ok {| collection := add_records (collection db) batch;
        write_log := write_log db ++ [batch_call batch] |}.
Proof.
  intros _. unfold db_add_documents. by rewrite comprehension_as_str.
Qed.

Lemma slice_identified (new_chunks : list Document) i j :
  Forall identified new_chunks → Forall identified (slice new_chunks i j).
Proof. intros H. unfold slice. by apply Forall_take, Forall_drop. Qed.

Lemma add_batches_spec new_chunks starts db :
  Forall identified new_chunks →
  add_batches db new_chunks starts =
  Ok {| collection := foldl add_records (collection db) (slices new_chunks starts);
        write_log := write_log db ++ (batch_call <$> slices new_chunks starts) |}.
Proof.
  intros Hid. revert db. induction starts as [|i starts IH]; intros db.
  - simpl. rewrite app_nil_r. by destruct db.
  - cbn [add_batches].
    rewrite comprehension_ids by by apply slice_identified.
    cbn [mbind result_bind].
    rewrite db_add_documents_identified by by apply slice_identified.
    cbn [mbind result_bind]. rewrite IH. simpl.
    by rewrite <- app_assoc.
Qed.

Lemma range_slices {A} (l : list A) fuel start :
  length l - start ≤ fuel →
  let batches := (λ i, slice l i (i + BATCH_SIZE)) <$>
                   range_loop fuel start (length l) BATCH_SIZE in
  concat batches = drop start l ∧
  Forall (λ batch, 0 < length batch ≤ BATCH_SIZE) batches ∧
  BATCH_SIZE * length batches < (length l - start) + BATCH_SIZE ∧
  length l - start ≤ BATCH_SIZE * length batches.
Proof.
  cbv zeta. revert start.
  induction fuel as [|fuel IH]; intros start Hfuel; cbn [range_loop].
  - rewrite drop_ge by lia. rewrite fmap_nil. cbn [concat length].
    unfold BATCH_SIZE. repeat split; [constructor|lia..].
  - case_decide as Hlt.
    + destruct (IH (start + BATCH_SIZE)) as (Hcat & Hall & Hup & Hlow).
      { unfold BATCH_SIZE. lia. }
      rewrite fmap_cons. cbn [concat length]. rewrite Hcat.
      unfold slice at 1 2. replace (start + BATCH_SIZE - start) with BATCH_SIZE by lia.
      repeat split.
      * rewrite <- drop_drop. apply take_drop.
      * constructor; [|done]. rewrite length_take, length_drop.
        unfold BATCH_SIZE. lia.
      * revert Hup Hlow. unfold BATCH_SIZE. lia.
      * revert Hup Hlow. unfold BATCH_SIZE. lia.
    + rewrite drop_ge by lia. rewrite fmap_nil. cbn [concat length].
      unfold BATCH_SIZE. repeat split; [constructor|lia..].
Qed.

Lemma batches_of_spec (new_chunks : list Document) :
  concat (batches_of new_chunks) = new_chunks ∧
  Forall (λ batch, 0 < length batch ≤ BATCH_SIZE) (batches_of new_chunks) ∧
  BATCH_SIZE * length (batches_of new_chunks) < length new_chunks + BATCH_SIZE ∧
  length new_chunks ≤ BATCH_SIZE * length (batches_of new_chunks).
Proof.
  pose proof (range_slices new_chunks (length new_chunks - 0) 0 (le_n _)) as H.
  cbv zeta in H. rewrite drop_0, Nat.sub_0_r in H.
  unfold batches_of, slices, range. rewrite Nat.sub_0_r. exact H.
Qed.

(** Replacing the record of an id keeps the ids where they are. *)
Lemma replace_keeps_ids r (col : list IndexRecord) :
  rec_id <$> ((λ r', if decide (rec_id r' = rec_id r) then r else r') <$> col)
  = rec_id <$> col.
Proof.
  rewrite <- list_fmap_compose. apply list_fmap_ext.
  intros i y _. simpl. by case_decide.
Qed.

Lemma upsert_ids r col x :
  x ∈ rec_id <$> upsert r col ↔ x ∈ rec_id <$> col ∨ x = rec_id r.
Proof.
  unfold upsert. case_decide as Hin.
  - rewrite replace_keeps_ids. split; [auto|]. intros [?| ->]; done.
  - rewrite fmap_app. rewrite elem_of_app. simpl. by rewrite list_elem_of_singleton.
Qed.

Lemma add_records_ids col batch x :
  x ∈ rec_id <$> add_records col batch ↔
  x ∈ rec_id <$> col ∨ x ∈ id_string <$> batch.
Proof.
  unfold add_records. revert col. induction batch as [|c batch IH]; intros col.
  - simpl. rewrite elem_of_nil. tauto.
  - rewrite fmap_cons. cbn [zip zip_with foldl]. rewrite IH, upsert_ids. simpl.
    rewrite elem_of_cons. tauto.
Qed.

Lemma foldl_add_records_ids col batches x :
  x ∈ rec_id <$> foldl add_records col batches ↔
  x ∈ rec_id <$> col ∨ x ∈ id_string <$> concat batches.
Proof.
  revert col. induction batches as [|b batches IH]; intros col.
  - simpl. rewrite elem_of_nil. tauto.
  - cbn [foldl concat]. rewrite IH, add_records_ids, fmap_app, elem_of_app. tauto.
Qed.

Lemma filter_none {A} (P : A → Prop) `{∀ x, Decision (P x)} (l : list A) :
  Forall (λ x, ¬ P x) l → filter P l = [].
Proof.
  induction 1 as [|x l Hx Hl IH]; [done|].
  rewrite filter_cons, IH. by rewrite decide_False.
Qed.

(** The comprehension that selects the new chunks always returns. *)
Lemma select_new_chunks_spec db chunks :
  select_new_chunks (remove_dups (VStr <$> ids (db_get db))) (calculate_chunk_ids chunks)
  = Ok (new_chunks_of db chunks).
Proof.
  rewrite select_new_chunks_filter by apply calculate_chunk_ids_identified.
  f_equal. apply list_filter_iff. intros c. unfold is_new.
  by rewrite elem_of_remove_dups.
Qed.

Lemma new_chunks_identified db chunks : Forall identified (new_chunks_of db chunks).
Proof.
  unfold new_chunks_of. apply Forall_forall. intros x Hx.
  apply list_elem_of_filter in Hx as [_ Hx].
  revert x Hx. apply Forall_forall, calculate_chunk_ids_identified.
Qed.

Lemma add_to_chroma_spec db chunks :
  add_to_chroma db chunks =
  Ok {| collection := foldl add_records (collection db)
                        (batches_of (new_chunks_of db chunks));
        write_log := write_log db ++
                     (batch_call <$> batches_of (new_chunks_of db chunks)) |}.
Proof.
  unfold add_to_chroma. rewrite select_new_chunks_spec. cbn [mbind result_bind].
  pose proof (new_chunks_identified db chunks) as Hid.
  destruct (new_chunks_of db chunks) as [|c new_chunks] eqn:Hnew.
  - destruct db. simpl. by rewrite app_nil_r.
  - by rewrite add_batches_spec.
Qed.

(** C7.  When the chunks the ingestion step selects as new are more than 50,
    the step returns, and the write calls it has issued are one
    [add_documents] call per batch: the batches are non-empty, hold at most
    50 chunks each, concatenate to the new chunks in their order, and their
    number is the ceiling of the number of new chunks over 50. *)
Theorem add_to_chroma_batches (db : Chroma) (chunks new_chunks : list Document) :
  select_new_chunks (remove_dups (VStr <$> ids (db_get db)))
                    (calculate_chunk_ids chunks) = Ok new_chunks →
  50 < length new_chunks →
  ∃ db' batches,
    add_to_chroma db chunks = Ok db' ∧
    write_log db' = write_log db ++ (batch_call <$> batches) ∧
    concat batches = new_chunks ∧
    Forall (λ batch, 0 < length batch ≤ 50) batches ∧
    50 * (length batches - 1) < length new_chunks ≤ 50 * length batches.
Proof.
  rewrite select_new_chunks_spec. intros [= <-] Hn.
  eexists _, (batches_of (new_chunks_of db chunks)).
  split; [apply add_to_chroma_spec|]. split; [done|].
  destruct (batches_of_spec (new_chunks_of db chunks)) as (Hcat & Hall & Hup & Hlow).
  split; [done|]. split; [done|].
  revert Hn Hup Hlow. unfold BATCH_SIZE. lia.
Qed.

Lemma add_to_chroma_batches_witness :
  ∃ db' batches,
    add_to_chroma (mkChroma [] []) (replicate 51 (pdf_chunk "a.pdf" 0 "text")) = Ok db' ∧
    write_log db' = [] ++ (batch_call <$> batches) ∧
    concat batches = calculate_chunk_ids (replicate 51 (pdf_chunk "a.pdf" 0 "text")) ∧
    Forall (λ batch, 0 < length batch ≤ 50) batches ∧
    50 * (length batches - 1) < 51 ≤ 50 * length batches.
Proof.
  apply (add_to_chroma_batches (mkChroma [] [])
           (replicate 51 (pdf_chunk "a.pdf" 0 "text"))
           (calculate_chunk_ids (replicate 51 (pdf_chunk "a.pdf" 0 "text")))).
  - vm_compute. reflexivity.
  - vm_compute. lia.
Defined.

(** No chunk is new: the store comes back as it was. *)
Lemma add_to_chroma_all_present db chunks :
  Forall (λ chunk, ∃ id, metadata chunk !! "id" = Some (VStr id) ∧
                         id ∈ ids (db_get db))
         (calculate_chunk_ids chunks) →
  add_to_chroma db chunks = Ok db.
Proof.
  intros Hall. rewrite add_to_chroma_spec.
  assert (new_chunks_of db chunks = []) as ->.
  { apply filter_none. eapply Forall_impl; [exact Hall|].
    intros c (id & Hid & Hin) Hnew. apply Hnew.
    unfold get. rewrite Hid. simpl. by apply list_elem_of_fmap_2. }
  destruct db. simpl. by rewrite app_nil_r.
Qed.

(** After a run every id of the chunk list is in the store. *)
Lemma add_to_chroma_ids_present db chunks db1 :
  add_to_chroma db chunks = Ok db1 →
  Forall (λ chunk, ∃ id, metadata chunk !! "id" = Some (VStr id) ∧
                         id ∈ ids (db_get db1))
         (calculate_chunk_ids chunks).
Proof.
  intros Hadd. rewrite add_to_chroma_spec in Hadd. simplify_eq/=.
  apply Forall_forall. intros c Hc.
  pose proof (calculate_chunk_ids_identified chunks) as Hid.
  rewrite Forall_forall in Hid. specialize (Hid c Hc).
  exists (id_string c). split.
  { destruct Hid as [id Hid]. unfold id_string, get. by rewrite Hid. }
  apply foldl_add_records_ids.
  destruct (batches_of_spec (new_chunks_of db chunks)) as (-> & _).
  destruct (decide (is_new (VStr <$> ids (db_get db)) c)) as [Hnew|Hold].
  - right. apply list_elem_of_fmap_2. unfold new_chunks_of.
    by apply list_elem_of_filter.
  - left. unfold is_new in Hold. apply dec_stable in Hold.
    rewrite (identified_get _ Hid) in Hold.
    by apply (list_elem_of_fmap_inj_2 VStr) in Hold.
Qed.

Lemma add_to_chroma_second_run db chunks db1 :
  add_to_chroma db chunks = Ok db1 → add_to_chroma db1 chunks = Ok db1.
Proof. intros Hadd. eapply add_to_chroma_all_present, add_to_chroma_ids_present, Hadd. Qed.

(** X28.  The ingestion step on its own is idempotent.  When every id of
    the chunk list is already in the store, it returns the store as it was,
    its log of write calls included: no write call is issued.  And a first
    run always returns, after which a second run over the same chunks is
    such a run. *)
Theorem add_to_chroma_idempotent (db : Chroma) (chunks : list Document) :
  (Forall (λ chunk, ∃ id, metadata chunk !! "id" = Some (VStr id) ∧
                          id ∈ ids (db_get db))
          (calculate_chunk_ids chunks) →
   add_to_chroma db chunks = Ok db) ∧
  (∃ db1, add_to_chroma db chunks = Ok db1 ∧ add_to_chroma db1 chunks = Ok db1).
Proof.
  split; [apply add_to_chroma_all_present|].
  eexists. split; [apply add_to_chroma_spec|].
  eapply add_to_chroma_second_run, add_to_chroma_spec.
Qed.

(** ** The synchroniser *)
Section SyncProofs.
Variable DATA_PATH : string.
Variable abspath : string → string.

Lemma wf_getitem_source r :
  well_formed_record r → getitem (rec_metadata r) "source" = Ok (source_of r).
Proof.
  intros [_ [s Hs]]. unfold getitem, source_of, get. by rewrite Hs.
Qed.

Lemma wf_getitem_id r :
  well_formed_record r → getitem (rec_metadata r) "id" = Ok (VStr (rec_id r)).
Proof. intros [Hid _]. unfold getitem. by rewrite Hid. Qed.

Lemma wf_source_is_str r : well_formed_record r → is_str (source_of r).
Proof. intros [_ [s Hs]]. exists s. unfold source_of, get. by rewrite Hs. Qed.

Lemma sources_of_ok col :
  Forall well_formed_record col →
  sources_of (rec_metadata <$> col) = Ok (remove_dups (source_of <$> col)).
Proof.
  intros Hwf. unfold sources_of.
  assert (comprehension (λ item, getitem item "source") (rec_metadata <$> col)
          = Ok (source_of <$> col)) as ->; [|done].
  induction Hwf as [|r col Hr Hcol IH]; [done|].
  rewrite !fmap_cons. cbn [comprehension].
  rewrite (wf_getitem_source _ Hr). cbn [mbind result_bind]. by rewrite IH.
Qed.

Lemma removed_ids_of_ok removed col :
  Forall well_formed_record col →
  removed_ids_of removed (rec_metadata <$> col) =
  Ok (VStr <$> (rec_id <$> filter (λ r, source_of r ∈ removed) col)).
Proof.
  induction 1 as [|r col Hr Hcol IH]; [done|].
  rewrite fmap_cons. cbn [removed_ids_of].
  rewrite (wf_getitem_source _ Hr). cbn [mbind result_bind].
  rewrite filter_cons. case_decide.
  - rewrite (wf_getitem_id _ Hr). cbn [mbind result_bind]. by rewrite IH.
  - done.
Qed.

Lemma db_delete_ok db (l : list string) :
  db_delete db (VStr <$> l) =
  Ok {| collection := filter (λ r, rec_id r ∉ l) (collection db);
        write_log := write_log db ++ [Delete l] |}.
Proof. unfold db_delete. by rewrite comprehension_as_str. Qed.

Lemma filter_ext_in {A} (P Q : A → Prop) `{∀ x, Decision (P x)}
    `{∀ x, Decision (Q x)} (l : list A) :
  (∀ x, x ∈ l → (P x ↔ Q x)) → filter P l = filter Q l.
Proof.
  induction l as [|x l IH]; intros Hext; [done|].
  rewrite !filter_cons. rewrite IH by (intros; apply Hext; by right).
  pose proof (Hext x ltac:(by left)).
  destruct (decide (P x)), (decide (Q x)); tauto.
Qed.

Lemma filter_all {A} (P : A → Prop) `{∀ x, Decision (P x)} (l : list A) :
  Forall P l → filter P l = l.
Proof.
  induction 1 as [|x l Hx Hl IH]; [done|].
  rewrite filter_cons, IH. by rewrite decide_True.
Qed.

Lemma NoDup_fmap_eq {A B} (f : A → B) (l : list A) x y :
  NoDup (f <$> l) → x ∈ l → y ∈ l → f x = f y → x = y.
Proof.
  intros Hnd Hx Hy Hf.
  apply list_elem_of_lookup in Hx as [i Hi]. apply list_elem_of_lookup in Hy as [j Hj].
  rewrite NoDup_alt in Hnd.
  assert (i = j) as ->; [|congruence].
  apply (Hnd i j (f x)); rewrite list_lookup_fmap.
  - by rewrite Hi.
  - rewrite Hj. simpl. by rewrite Hf.
Qed.

Lemma filter_removed_ids (P : IndexRecord → Prop) `{∀ r, Decision (P r)} col :
  NoDup (rec_id <$> col) →
  filter (λ r, rec_id r ∉ rec_id <$> filter P col) col = filter (λ r, ¬ P r) col.
Proof.
  intros Hnd. apply filter_ext_in. intros r Hr. split.
  - intros Hnot HP. apply Hnot. apply list_elem_of_fmap_2. by apply list_elem_of_filter.
  - intros HnP Hin. apply list_elem_of_fmap in Hin as (r' & Heq & Hr').
    apply list_elem_of_filter in Hr' as [HP Hr'].
    assert (r = r') as -> by (eapply NoDup_fmap_eq; eauto). done.
Qed.

Lemma first_same_basename_ok source current :
  is_str source → Forall is_str current →
  ∃ found, first_same_basename source current = Ok found.
Proof.
  intros [s ->]. induction 1 as [|v current [s' ->] Hcur IH]; simpl; [eauto|].
  case_decide; eauto.
Qed.

Lemma dict_set_keys (P : value → Prop) d k v :
  Forall (λ kv, P kv.1) d → P k → Forall (λ kv, P kv.1) (dict_set d k v).
Proof.
  intros Hd Hk. induction Hd as [|[k' v'] d Hkv Hd IH]; simpl.
  - by repeat constructor.
  - case_decide; constructor; auto.
Qed.

Lemma detect_renamed_loop_ok acc sources current :
  Forall is_str sources → Forall is_str current →
  Forall (λ kv, kv.1 ∉ current) acc →
  ∃ renamed, detect_renamed_loop acc sources current = Ok renamed ∧
             Forall (λ kv, kv.1 ∉ current) renamed.
Proof.
  intros Hs Hcur. revert acc.
  induction Hs as [|source sources Hsrc Hs IH]; intros acc Hacc; simpl; [eauto|].
  case_decide as Hin; [|by apply IH].
  destruct (first_same_basename_ok source current Hsrc Hcur) as [found ->].
  simpl. destruct found as [new_source|]; [|by apply IH].
  apply IH. by apply (dict_set_keys (λ k, k ∉ current)).
Qed.

Lemma update_source_loop_noop db snapshot old_source new_source :
  Forall (λ metadata, ∃ v, metadata !! "source" = Some v ∧ v ≠ old_source) snapshot →
  update_source_loop db snapshot old_source new_source = Ok db.
Proof.
  induction 1 as [|metadata snapshot (v & Hv & Hne) Hrest IH]; [done|].
  simpl. unfold getitem. rewrite Hv. simpl. by rewrite decide_False.
Qed.

Lemma update_renamed_noop db (current : list value) renamed :
  Forall well_formed_record (collection db) →
  Forall (λ r, source_of r ∈ current) (collection db) →
  Forall (λ kv : value * value, kv.1 ∉ current) renamed →
  update_renamed db renamed = Ok db.
Proof.
  intros Hwf Hcur. induction 1 as [|[old new] renamed Hold Hrest IH]; [done|].
  simpl. unfold update_source_in_db. rewrite update_source_loop_noop; [done|].
  simpl. apply Forall_fmap. apply Forall_forall. intros r Hr.
  rewrite Forall_forall in Hwf, Hcur. simpl.
  destruct (Hwf r Hr) as [_ [s Hs]]. exists (VStr s). split; [done|].
  intros <-. apply Hold. simpl.
  specialize (Hcur r Hr). unfold source_of, get in Hcur. by rewrite Hs in Hcur.
Qed.

Lemma scan_current_sources_is_str listdir :
  Forall is_str (scan_current_sources DATA_PATH abspath listdir).
Proof.
  unfold scan_current_sources. apply Forall_forall. intros v Hv.
  apply elem_of_remove_dups, list_elem_of_fmap in Hv as (f & -> & _). by eexists.
Qed.

Lemma sync_with_directory_spec db listdir :
  well_formed db →
  ∃ log,
    sync_with_directory DATA_PATH abspath db listdir =
    Ok {| collection := filter (λ r, source_of r ∉ removed_sources_of DATA_PATH abspath db listdir)
                               (collection db);
          write_log := write_log db ++ log |} ∧
    (removed_sources_of DATA_PATH abspath db listdir = [] → log = []).
Proof.
  intros [Hnd Hwf]. unfold sync_with_directory.
  cbn [metadatas db_get]. rewrite (sources_of_ok _ Hwf). cbn [mbind result_bind].
  fold (removed_sources_of DATA_PATH abspath db listdir).
  set (current := scan_current_sources DATA_PATH abspath listdir).
  set (kept := filter (λ r, source_of r ∉ removed_sources_of DATA_PATH abspath db listdir) (collection db)).
  assert (Forall (λ r, source_of r ∈ current) kept) as Hkept.
  { apply Forall_forall. intros r Hr. apply list_elem_of_filter in Hr as [Hnot Hr].
    destruct (decide (source_of r ∈ current)) as [|Hout]; [done|].
    exfalso. apply Hnot. apply list_elem_of_difference. split; [|done].
    apply elem_of_remove_dups. by apply list_elem_of_fmap_2. }
  assert (Forall well_formed_record kept) as Hwfk.
  { apply Forall_forall. intros r Hr. apply list_elem_of_filter in Hr as [_ Hr].
    rewrite Forall_forall in Hwf. auto. }
  assert (Forall is_str (remove_dups (source_of <$> collection db))) as Hstr.
  { apply Forall_forall. intros v Hv.
    apply elem_of_remove_dups, list_elem_of_fmap in Hv as (r & -> & Hr).
    rewrite Forall_forall in Hwf. by apply wf_source_is_str, Hwf. }
  destruct (detect_renamed_loop_ok [] (remove_dups (source_of <$> collection db))
              current Hstr (scan_current_sources_is_str listdir) (Forall_nil_2 _))
    as (renamed & Hdetect & Hkeys).
  destruct (removed_sources_of DATA_PATH abspath db listdir) as [|v removed] eqn:Hremoved.
  - exists []. split; [|done]. cbn [mbind result_bind].
    unfold detect_renamed_files. fold current. rewrite Hdetect. cbn [mbind result_bind].
    assert (kept = collection db) as Hall.
    { apply filter_all. apply Forall_forall. intros r _. apply not_elem_of_nil. }
    rewrite Hall in Hkept.
    rewrite (update_renamed_noop db current renamed Hwf Hkept Hkeys).
    rewrite app_nil_r. subst kept. rewrite Hall. by destruct db.
  - exists [Delete (rec_id <$> filter (λ r, source_of r ∈ v :: removed) (collection db))].
    split; [|done].
    rewrite (removed_ids_of_ok _ _ Hwf). cbn [mbind result_bind].
    rewrite db_delete_ok. cbn [mbind result_bind].
    rewrite (filter_removed_ids _ _ Hnd).
    unfold detect_renamed_files. fold current. rewrite Hdetect. cbn [mbind result_bind].
    by rewrite (update_renamed_noop (mkChroma kept _) current renamed Hwfk Hkept Hkeys).
Qed.
Lemma scan_current_sources_spec listdir v :
  v ∈ scan_current_sources DATA_PATH abspath listdir ↔
  current_source DATA_PATH abspath listdir v.
Proof.
  unfold scan_current_sources, current_source.
  rewrite elem_of_remove_dups, list_elem_of_fmap. split.
  - intros (p & -> & Hp).
    apply elem_of_remove_dups, list_elem_of_fmap in Hp as (file & -> & Hfile).
    apply list_elem_of_filter in Hfile as [Hpdf Hfile].
    exists file. split; [done|]. split; [by apply Is_true_true|done].
  - intros (file & Hfile & Hpdf & ->). eexists. split; [done|].
    apply elem_of_remove_dups, list_elem_of_fmap. exists file. split; [done|].
    apply list_elem_of_filter. split; [by apply Is_true_true|done].
Qed.

(** C5, as amended.  On a store that holds one record per identifier, each
    with its own identifier as [id] metadata and a string as [source]
    metadata, as the index writer writes them, a synchronisation pass
    returns and deletes exactly the records whose source metadata is in
    [existing_sources - current_sources], where [existing_sources] are the
    sources the records name and [current_sources] the absolute paths of
    the eligible files: these records are gone, and every other record
    stays, unchanged and in place. *)
Theorem sync_deletes_removed_sources (db : Chroma) (listdir : list string) :
  well_formed db → deletes_exactly_removed DATA_PATH abspath db listdir.
Proof.
  intros Hwf. destruct (sync_with_directory_spec db listdir Hwf) as (log & Hsync & _).
  eexists. split; [exact Hsync|]. cbn [collection].
  split; [apply sublist_filter|].
  intros r Hr. rewrite list_elem_of_filter. unfold removed_sources_of.
  rewrite list_elem_of_difference, elem_of_remove_dups, scan_current_sources_spec.
  destruct Hwf as [_ Hwf]. rewrite Forall_forall in Hwf.
  destruct (Hwf r Hr) as [_ [path Hpath]].
  assert (source_of r = VStr path) as Hsrc by (unfold source_of, get; by rewrite Hpath).
  split.
  - intros [Hkept _] (v & Hv & _ & Hgone). apply Hkept.
    rewrite Hv in Hpath. injection Hpath as ->. rewrite Hsrc.
    split; [|done]. apply list_elem_of_fmap. by exists r.
  - intros Hkept. split; [|done]. intros [_ Hgone]. apply Hkept.
    exists (VStr path). split; [done|]. split; [by exists r|]. by rewrite <- Hsrc.
Qed.

End SyncProofs.

Lemma two_files_well_formed : well_formed two_files_index.
Proof.
  split.
  - apply (bool_decide_unpack _). vm_compute. exact I.
  - repeat constructor; by eexists.
Qed.

Lemma sync_deletes_removed_sources_witness :
  deletes_exactly_removed "/data" (λ p, p) two_files_index ["b.pdf"].
Proof.
  apply (sync_deletes_removed_sources "/data" (λ p, p) two_files_index ["b.pdf"]).
  exact two_files_well_formed.
Defined.

(** C5, as the claim states it, fails on stores the index writer has not
    written.  When a record carries another record's identifier as its [id]
    metadata, the pass deletes by the metadata: the record of the removed
    file [a.pdf] stays and the record of [b.pdf], which is there, goes.
    When a record names no source, or a number, the pass raises. *)
Lemma sync_deletes_by_metadata_id :
  sync_with_directory "/data" (λ p, p) mislabelled_index ["b.pdf"]
    = Ok {| collection :=
              [mkRecord "k1" "first"
                 (<["id" := VStr "k2"]> {["source" := VStr "/data/a.pdf"]})];
            write_log := [Delete ["k2"]] |} ∧
  ¬ deletes_exactly_removed "/data" (λ p, p) mislabelled_index ["b.pdf"] ∧
  sync_with_directory "/data" (λ p, p) unsourced_index [] = Raise (KeyError "source") ∧
  ¬ deletes_exactly_removed "/data" (λ p, p) unsourced_index [] ∧
  sync_with_directory "/data" (λ p, p) numbered_index ["b.pdf"] = Raise TypeError ∧
  ¬ deletes_exactly_removed "/data" (λ p, p) numbered_index ["b.pdf"].
Proof.
  split; [vm_compute; reflexivity|]. split.
  { intros (db' & Hsync & _ & Hexact).
    assert (collection db' =
            [mkRecord "k1" "first"
               (<["id" := VStr "k2"]> {["source" := VStr "/data/a.pdf"]})]) as Hcol.
    { vm_compute in Hsync. by injection Hsync as <-. }
    specialize (Hexact (mkRecord "k1" "first"
                          (<["id" := VStr "k2"]> {["source" := VStr "/data/a.pdf"]}))).
    rewrite Hcol in Hexact.
    apply Hexact; [by left|by left|].
    exists (VStr "/data/a.pdf"). split; [reflexivity|]. split.
    - eexists. split; [by left|reflexivity].
    - intros (file & Hfile & _ & Heq).
      apply list_elem_of_singleton in Hfile as ->. vm_compute in Heq. discriminate. }
  split; [vm_compute; reflexivity|]. split.
  { intros (db' & Hsync & _). vm_compute in Hsync. discriminate. }
  split; [vm_compute; reflexivity|].
  intros (db' & Hsync & _). vm_compute in Hsync. discriminate.
Qed.

(** C2, where the code departs from the claim.  [DATA_PATH] is the
    relative path [data] and the working directory is [/srv/rag].  The
    loader is handed [DATA_PATH] as it is and reports [a.pdf] as
    [data/a.pdf]; the synchroniser compares the sources of the store with
    the absolute paths of the files.  The first run indexes the two chunks
    of [a.pdf].  The second run, over the unchanged corpus, finds no source
    of the store among the current ones: it deletes both records, and the
    index writer inserts them again.  The ingestion step alone, on the store
    the first run leaves, issues no call. *)
Theorem main_second_run_rewrites_index :
  ∃ db1 db2,
    main "data" (abspath_in "/srv/rag") (λ documents, documents) false
      relative_corpus {| collection := []; write_log := [] |} = Ok db1 ∧
    main "data" (abspath_in "/srv/rag") (λ documents, documents) false
      relative_corpus db1 = Ok db2 ∧
    rec_id <$> collection db1 = ["data/a.pdf:0:0"; "data/a.pdf:0:1"] ∧
    source_of <$> collection db1 = [VStr "data/a.pdf"; VStr "data/a.pdf"] ∧
    scan_current_sources "data" (abspath_in "/srv/rag") (listdir relative_corpus)
      = [VStr "/srv/rag/data/a.pdf"] ∧
    write_log db1 =
      [batch_call (calculate_chunk_ids (load_documents relative_corpus))] ∧
    write_log db2 =
      write_log db1 ++
      [Delete ["data/a.pdf:0:0"; "data/a.pdf:0:1"];
       batch_call (calculate_chunk_ids (load_documents relative_corpus))] ∧
    collection db2 = collection db1 ∧
    add_to_chroma db1 (load_documents relative_corpus) = Ok db1.
Proof.
  eexists _, _. split; [vm_compute; reflexivity|].
  split; [vm_compute; reflexivity|].
  split_and!; vm_compute; reflexivity.
Qed.

(** C1, where the code departs from the claim.  The store holds the two
    records of [/data/a.pdf].  When the file is renamed to [b.pdf], the pass
    deletes both records and rewrites none.  When the file keeps its name
    and moves from [/old] to [/data], the pair is detected as a rename, and
    yet the pass deletes both records: the deletion runs first and leaves
    nothing for [update_source_in_db] to rewrite. *)
Theorem rename_deletes_records :
  sync_with_directory "/data" (λ p, p) (index_of "/data/a.pdf") ["b.pdf"]
    = Ok {| collection := [];
            write_log := [Delete ["/data/a.pdf:0:0"; "/data/a.pdf:0:1"]] |} ∧
  detect_renamed_files [VStr "/old/a.pdf"] (scan_current_sources "/data" (λ p, p) ["a.pdf"])
    = Ok [(VStr "/old/a.pdf", VStr "/data/a.pdf")] ∧
  sync_with_directory "/data" (λ p, p) (index_of "/old/a.pdf") ["a.pdf"]
    = Ok {| collection := [];
            write_log := [Delete ["/old/a.pdf:0:0"; "/old/a.pdf:0:1"]] |}.
Proof. repeat split; vm_compute; reflexivity. Qed.


(** *** Stores the program can reach *)

Lemma upsert_Forall (P : IndexRecord → Prop) r col :
  Forall P col → P r → Forall P (upsert r col).
Proof.
  intros Hcol Hr. unfold upsert. case_decide.
  - apply Forall_fmap. eapply Forall_impl; [exact Hcol|].
    intros r' Hr'. simpl. by case_decide.
  - apply Forall_app. split; [done|]. by constructor.
Qed.

Lemma upsert_NoDup r col :
  NoDup (rec_id <$> col) → NoDup (rec_id <$> upsert r col).
Proof.
  intros Hnd. unfold upsert. case_decide as Hin.
  - by rewrite replace_keeps_ids.
  - rewrite fmap_app. apply NoDup_app. split; [done|]. split.
    + intros x Hx Hx'. apply list_elem_of_singleton in Hx'. by subst.
    + apply NoDup_singleton.
Qed.

Lemma add_records_Forall (P : IndexRecord → Prop) col batch :
  Forall P col → Forall (λ c, P (record_of c (id_string c))) batch →
  Forall P (add_records col batch).
Proof.
  intros Hcol Hbatch. unfold add_records. revert col Hcol.
  induction Hbatch as [|c batch Hc Hbatch IH]; intros col Hcol; [done|].
  rewrite fmap_cons. cbn [zip zip_with foldl]. apply IH. by apply upsert_Forall.
Qed.

Lemma add_records_NoDup col batch :
  NoDup (rec_id <$> col) → NoDup (rec_id <$> add_records col batch).
Proof.
  unfold add_records. revert col.
  induction batch as [|c batch IH]; intros col Hcol; [done|].
  rewrite fmap_cons. cbn [zip zip_with foldl]. apply IH. by apply upsert_NoDup.
Qed.

Lemma foldl_add_records_Forall (P : IndexRecord → Prop) col batches :
  Forall P col → Forall (λ c, P (record_of c (id_string c))) (concat batches) →
  Forall P (foldl add_records col batches).
Proof.
  revert col. induction batches as [|b batches IH]; intros col Hcol Hb; [done|].
  cbn [concat] in Hb. apply Forall_app in Hb as [Hb Hrest].
  cbn [foldl]. apply IH; [|done]. by apply add_records_Forall.
Qed.

Lemma foldl_add_records_NoDup col batches :
  NoDup (rec_id <$> col) → NoDup (rec_id <$> foldl add_records col batches).
Proof.
  revert col. induction batches as [|b batches IH]; intros col Hcol; [done|].
  cbn [foldl]. apply IH. by apply add_records_NoDup.
Qed.

(** What [add_to_chroma] leaves holds of every record, if it held before
    and holds of the records made from the chunks. *)
Lemma add_to_chroma_Forall (P : IndexRecord → Prop) db chunks db' :
  Forall P (collection db) →
  Forall (λ c, P (record_of c (id_string c))) (calculate_chunk_ids chunks) →
  add_to_chroma db chunks = Ok db' → Forall P (collection db').
Proof.
  intros Hdb Hchunks Hadd. rewrite add_to_chroma_spec in Hadd. simplify_eq/=.
  apply foldl_add_records_Forall; [done|].
  destruct (batches_of_spec (new_chunks_of db chunks)) as (-> & _).
  unfold new_chunks_of. apply Forall_forall. intros c Hc.
  apply list_elem_of_filter in Hc as [_ Hc].
  rewrite Forall_forall in Hchunks. auto.
Qed.

Lemma calculate_chunk_ids_source chunks (P : value → Prop) :
  Forall (λ c, P (get (metadata c) "source")) chunks →
  Forall (λ c, P (get (metadata c) "source")) (calculate_chunk_ids chunks).
Proof.
  intros Hsrc. apply Forall_lookup. intros i c Hc.
  destruct (chunks !! i) as [chunk|] eqn:Hi.
  - rewrite (calculate_chunk_ids_lookup _ _ _ Hi) in Hc. simplify_eq.
    rewrite Forall_lookup in Hsrc. specialize (Hsrc i chunk Hi).
    unfold get in *. simpl. by rewrite lookup_insert_ne.
  - apply lookup_ge_None in Hi. apply lookup_lt_Some in Hc.
    rewrite calculate_chunk_ids_length in Hc. lia.
Qed.

Lemma well_formed_empty log : well_formed {| collection := []; write_log := log |}.
Proof. split; [apply NoDup_nil_2|constructor]. Qed.

(** The index writer keeps the store well formed when the chunks name their
    source file. *)
Lemma add_to_chroma_well_formed db chunks db' :
  well_formed db →
  Forall (λ c, is_str (get (metadata c) "source")) chunks →
  add_to_chroma db chunks = Ok db' → well_formed db'.
Proof.
  intros [Hnd Hwf] Hsrc Hadd. split.
  - rewrite add_to_chroma_spec in Hadd. simplify_eq/=.
    by apply foldl_add_records_NoDup.
  - apply (add_to_chroma_Forall well_formed_record db chunks db' Hwf); [|done].
    pose proof (calculate_chunk_ids_identified chunks) as Hid.
    apply (calculate_chunk_ids_source _ is_str) in Hsrc.
    rewrite Forall_forall in Hid, Hsrc. apply Forall_forall. intros c Hc.
    destruct (Hid c Hc) as [id Hcid]. destruct (Hsrc c Hc) as [s Hs].
    split; simpl.
    + unfold id_string, get. by rewrite Hcid.
    + exists s. unfold get in Hs. by destruct (metadata c !! "source"); simplify_eq/=.
Qed.

Section MainProofs.
Variable DATA_PATH : string.
Variable abspath : string → string.
Variable split_documents : list Document → list Document.

Lemma sync_with_directory_well_formed db listdir db' :
  well_formed db →
  sync_with_directory DATA_PATH abspath db listdir = Ok db' → well_formed db'.
Proof.
  intros Hwf Hsync.
  destruct (sync_with_directory_spec DATA_PATH abspath db listdir Hwf) as (log & Hspec & _).
  rewrite Hspec in Hsync. simplify_eq/=. destruct Hwf as [Hnd Hwf]. split; simpl.
  - eapply sublist_NoDup; [exact Hnd|]. apply fmap_sublist, sublist_filter.
  - apply Forall_forall. intros r Hr. apply list_elem_of_filter in Hr as [_ Hr].
    rewrite Forall_forall in Hwf. auto.
Qed.

(** A pass over a store all of whose sources are current changes nothing
    and issues no call. *)
Lemma sync_with_directory_current db listdir :
  well_formed db →
  Forall (λ r, source_of r ∈ scan_current_sources DATA_PATH abspath listdir)
         (collection db) →
  sync_with_directory DATA_PATH abspath db listdir = Ok db.
Proof.
  intros Hwf Hcur.
  destruct (sync_with_directory_spec DATA_PATH abspath db listdir Hwf) as (log & -> & Hlog).
  assert (removed_sources_of DATA_PATH abspath db listdir = []) as Hnone.
  { apply elem_of_nil_inv. intros v Hv. 
    apply list_elem_of_difference in Hv as [Hv Hout]. apply Hout.
    apply elem_of_remove_dups, list_elem_of_fmap in Hv as (r & -> & Hr).
    rewrite Forall_forall in Hcur. auto. }
  rewrite (Hlog Hnone), Hnone, app_nil_r.
  rewrite filter_all by (apply Forall_forall; intros r _; apply not_elem_of_nil).
  by destruct db.
Qed.

(** The whole of [main], run twice on an unchanged corpus whose loader
    reports the files under the paths the scanner computes: the second
    run returns the store of the first, write log included. *)
Lemma main_second_run_writes_nothing reset corpus db db1 :
  well_formed db →
  Forall (λ c, get (metadata c) "source"
                 ∈ scan_current_sources DATA_PATH abspath (listdir corpus))
         (split_documents (load_documents corpus)) →
  main DATA_PATH abspath split_documents reset corpus db = Ok db1 →
  main DATA_PATH abspath split_documents false corpus db1 = Ok db1.
Proof.
  intros Hwf Hsrc Hmain. unfold main in *.
  set (current := scan_current_sources DATA_PATH abspath (listdir corpus)) in *.
  set (chunks := split_documents (load_documents corpus)) in *.
  set (db0 := if reset then clear_database db else db) in *.
  assert (well_formed db0) as Hwf0.
  { subst db0. destruct reset; [apply well_formed_empty|done]. }
  destruct (sync_with_directory DATA_PATH abspath db0 (listdir corpus)) as [dbs|e] eqn:Hsync;
    [|done].
  cbn [mbind result_bind] in Hmain.
  pose proof (sync_with_directory_well_formed _ _ _ Hwf0 Hsync) as Hwfs.
  assert (Forall (λ r, source_of r ∈ current) (collection dbs)) as Hcurs.
  { destruct (sync_with_directory_spec DATA_PATH abspath db0 (listdir corpus) Hwf0)
      as (log & Hspec & _).
    rewrite Hspec in Hsync. simplify_eq/=.
    apply Forall_forall. intros r Hr. apply list_elem_of_filter in Hr as [Hnot Hr].
    destruct (decide (source_of r ∈ current)) as [|Hout]; [done|].
    exfalso. apply Hnot. apply list_elem_of_difference. split; [|done].
    apply elem_of_remove_dups. by apply list_elem_of_fmap_2. }
  assert (Forall (λ c, is_str (get (metadata c) "source")) chunks) as Hstr.
  { eapply Forall_impl; [exact Hsrc|]. intros c Hc.
    pose proof (scan_current_sources_is_str DATA_PATH abspath (listdir corpus)) as Hall.
    rewrite Forall_forall in Hall. auto. }
  pose proof (add_to_chroma_well_formed _ _ _ Hwfs Hstr Hmain) as Hwf1.
  assert (Forall (λ r, source_of r ∈ current) (collection db1)) as Hcur1.
  { apply (add_to_chroma_Forall _ dbs chunks db1 Hcurs); [|done].
    apply (calculate_chunk_ids_source _ (λ v, v ∈ current)) in Hsrc.
    eapply Forall_impl; [exact Hsrc|]. by intros c Hc. }
  rewrite (sync_with_directory_current db1 (listdir corpus) Hwf1 Hcur1).
  cbn [mbind result_bind].
  by apply (add_to_chroma_second_run dbs).
Qed.
End MainProofs.

(** ** The scenario of the specification, run on the embedding *)

(** One page of [a.pdf] that splits into two chunks. *)
Example scenario_ids :
  chunk_ids (calculate_chunk_ids
               [pdf_chunk "/data/a.pdf" 0 "first"; pdf_chunk "/data/a.pdf" 0 "second"])
  = [Some (VStr "/data/a.pdf:0:0"); Some (VStr "/data/a.pdf:0:1")].
Proof. vm_compute. reflexivity. Qed.

(** Ingesting them into an empty store leaves the store [index_of] names,
    after one write call. *)
Example scenario_ingest :
  add_to_chroma (mkChroma [] [])
    [pdf_chunk "/data/a.pdf" 0 "first"; pdf_chunk "/data/a.pdf" 0 "second"]
  = Ok {| collection := collection (index_of "/data/a.pdf");
          write_log :=
            [batch_call (calculate_chunk_ids
               [pdf_chunk "/data/a.pdf" 0 "first"; pdf_chunk "/data/a.pdf" 0 "second"])] |}.
Proof. vm_compute. reflexivity. Qed.

(** Ingesting them again issues no write call. *)
Example scenario_ingest_again :
  add_to_chroma (index_of "/data/a.pdf")
    [pdf_chunk "/data/a.pdf" 0 "first"; pdf_chunk "/data/a.pdf" 0 "second"]
  = Ok (index_of "/data/a.pdf").
Proof. vm_compute. reflexivity. Qed.

(** Deleting [a.pdf] and synchronising removes both records. *)
Example scenario_delete :
  sync_with_directory "/data" (λ p, p) (index_of "/data/a.pdf") []
  = Ok {| collection := [];
          write_log := [Delete ["/data/a.pdf:0:0"; "/data/a.pdf:0:1"]] |}.
Proof. vm_compute. reflexivity. Qed.

(** A pass over an unchanged directory leaves the store alone. *)
Example scenario_unchanged :
  sync_with_directory "/data" (λ p, p) (index_of "/data/a.pdf") ["a.pdf"; "notes.txt"]
  = Ok (index_of "/data/a.pdf").
Proof. vm_compute. reflexivity. Qed.

(** 120 new chunks go out in batches of 50, 50 and 20. *)
Example scenario_batches :
  length <$> batches_of (calculate_chunk_ids (replicate 120 (pdf_chunk "a.pdf" 0 "text")))
  = [50; 50; 20].
Proof. vm_compute. reflexivity. Qed.

(** * Further properties of [populate_database.py] *)

(** ** More on chunk identity *)

Lemma page_id_set_id chunk v : page_id (set_metadata chunk "id" v) = page_id chunk.
Proof.
  unfold page_id, get. simpl. by rewrite !lookup_insert_ne.
Qed.

Lemma page_ids_calculate_chunk_ids chunks :
  page_id <$> calculate_chunk_ids chunks = page_id <$> chunks.
Proof.
  apply list_eq. intros i. rewrite !list_lookup_fmap.
  destruct (chunks !! i) as [c|] eqn:Hi.
  - rewrite (calculate_chunk_ids_lookup _ _ _ Hi). simpl. by rewrite page_id_set_id.
  - apply lookup_ge_None in Hi.
    rewrite (proj2 (lookup_ge_None _ _)); [done|].
    by rewrite calculate_chunk_ids_length.
Qed.

(** X1.  Assigning ids to chunks that have been through the assigner
    already changes nothing: the ids do not depend on the ids the chunks
    carry, and a second pass recomputes the same ones. *)
Theorem calculate_chunk_ids_idempotent (chunks : list Document) :
  calculate_chunk_ids (calculate_chunk_ids chunks) = calculate_chunk_ids chunks.
Proof.
  apply list_eq. intros i.
  destruct (chunks !! i) as [c|] eqn:Hi.
  - pose proof (calculate_chunk_ids_lookup _ _ _ Hi) as Hc.
    rewrite (calculate_chunk_ids_lookup _ _ _ Hc), Hc.
    rewrite page_ids_calculate_chunk_ids, page_id_set_id.
    unfold set_metadata. simpl. by rewrite insert_insert_eq.
  - apply lookup_ge_None in Hi.
    rewrite !(proj2 (lookup_ge_None _ _)); [done|..];
      rewrite ?calculate_chunk_ids_length; done.
Qed.

Lemma sequence_at_constant (pids : list string) (x : string) i :
  (∀ j, j ≤ i → pids !! j = Some x) → sequence_at pids i = i.
Proof.
  induction i as [|i IH]; intros Hall; [done|].
  rewrite sequence_at_S.
  - f_equal. apply IH. intros j Hj. apply Hall. lia.
  - rewrite !Hall by lia. done.
Qed.

(** X2.  Chunks whose metadata names neither a source nor a page raise no
    error: they all fall under the page id [None:None] and are numbered
    from 0 through the whole list. *)
Theorem calculate_chunk_ids_unlabelled (chunks : list Document) :
  Forall (λ c, metadata c !! "source" = None ∧ metadata c !! "page" = None) chunks →
  chunk_ids (calculate_chunk_ids chunks) =
  (λ i, Some (VStr ("None:None:" +:+ pretty i))) <$> seq 0 (length chunks).
Proof.
  intros Hnone.
  assert (∀ i c, chunks !! i = Some c → page_id c = "None:None") as Hpid.
  { intros i c Hi. rewrite Forall_lookup in Hnone.
    destruct (Hnone i c Hi) as [Hs Hp]. unfold page_id, get. by rewrite Hs, Hp. }
  apply list_eq. intros i. rewrite list_lookup_fmap.
  destruct (chunks !! i) as [c|] eqn:Hi.
  - rewrite (chunk_ids_lookup _ _ _ Hi), (Hpid _ _ Hi).
    rewrite (lookup_seq_lt _ _ i) by (by apply lookup_lt_Some in Hi). simpl.
    rewrite (sequence_at_constant _ "None:None"); [done|].
    intros j Hj. rewrite list_lookup_fmap.
    destruct (chunks !! j) as [cj|] eqn:Hcj.
    + simpl. by rewrite (Hpid _ _ Hcj).
    + apply lookup_ge_None in Hcj. apply lookup_lt_Some in Hi. lia.
  - apply lookup_ge_None in Hi.
    rewrite (proj2 (lookup_ge_None _ _)).
    + by rewrite lookup_seq_ge.
    + unfold chunk_ids. by rewrite length_fmap, calculate_chunk_ids_length.
Qed.

Lemma calculate_chunk_ids_unlabelled_witness :
  chunk_ids (calculate_chunk_ids [mkDocument "one" ∅; mkDocument "two" ∅]) =
  (λ i, Some (VStr ("None:None:" +:+ pretty i))) <$> seq 0 2.
Proof.
  apply (calculate_chunk_ids_unlabelled [mkDocument "one" ∅; mkDocument "two" ∅]).
  repeat constructor.
Defined.

(** X3.  Each chunk gets the same id whatever the order in which the files
    are loaded: when the chunks come file by file and no two files share a
    page id, loading the files in another order permutes the chunks with
    their ids. *)
Theorem calculate_chunk_ids_file_order (blocks1 blocks2 : list (list Document)) :
  blocks1 ≡ₚ blocks2 → separated blocks1 →
  calculate_chunk_ids (concat blocks1) ≡ₚ calculate_chunk_ids (concat blocks2).
Proof.
  intros Hperm Hsep.
  rewrite !calculate_chunk_ids_concat by eauto using separated_Permutation.
  by apply concat_Permutation, fmap_Permutation.
Qed.

Lemma calculate_chunk_ids_file_order_witness :
  calculate_chunk_ids
    (concat [[pdf_chunk "a.pdf" 0 "x"; pdf_chunk "a.pdf" 0 "y"]; [pdf_chunk "b.pdf" 0 "z"]])
  ≡ₚ calculate_chunk_ids
    (concat [[pdf_chunk "b.pdf" 0 "z"]; [pdf_chunk "a.pdf" 0 "x"; pdf_chunk "a.pdf" 0 "y"]]).
Proof.
  apply (calculate_chunk_ids_file_order
           [[pdf_chunk "a.pdf" 0 "x"; pdf_chunk "a.pdf" 0 "y"]; [pdf_chunk "b.pdf" 0 "z"]]
           [[pdf_chunk "b.pdf" 0 "z"]; [pdf_chunk "a.pdf" 0 "x"; pdf_chunk "a.pdf" 0 "y"]]).
  - apply perm_swap.
  - simpl. split; [|split; [|done]].
    2:{ intros c c' block' _ Hb. by apply elem_of_nil in Hb. }
    intros c c' block' Hc Hb Hc'.
    apply list_elem_of_singleton in Hb as ->.
    apply list_elem_of_singleton in Hc' as ->.
    apply elem_of_cons in Hc as [->|Hc]; [discriminate|].
    apply list_elem_of_singleton in Hc as ->. discriminate.
Defined.

(** X4.  On the interpreter's objects: when the list refers to every
    object once, as the list the splitter returns, the loop leaves in each
    listed object what the list-to-list reading computes for its position,
    and it touches no object outside the list. *)
Theorem calculate_chunk_ids_in_place_spec (refs : list nat)
    (heap : gmap nat Document) (chunks : list Document) :
  NoDup refs →
  Forall2 (λ ref chunk, heap !! ref = Some chunk) refs chunks →
  Forall2 (λ ref chunk,
             calculate_chunk_ids_in_place None 0 refs heap !! ref = Some chunk)
          refs (calculate_chunk_ids chunks) ∧
  ∀ r, r ∉ refs → calculate_chunk_ids_in_place None 0 refs heap !! r = heap !! r.
Proof.
  intros Hnd Hrefs. split.
  - by apply in_place_agrees.
  - intros r Hr. by apply in_place_other.
Qed.

Lemma calculate_chunk_ids_in_place_spec_witness :
  Forall2 (λ ref chunk,
             calculate_chunk_ids_in_place None 0 [7; 3] sample_heap !! ref = Some chunk)
          [7; 3]
          (calculate_chunk_ids [pdf_chunk "a.pdf" 0 "x"; pdf_chunk "a.pdf" 0 "y"]) ∧
  ∀ r, r ∉ [7; 3] →
       calculate_chunk_ids_in_place None 0 [7; 3] sample_heap !! r = sample_heap !! r.
Proof.
  apply (calculate_chunk_ids_in_place_spec [7; 3] sample_heap
           [pdf_chunk "a.pdf" 0 "x"; pdf_chunk "a.pdf" 0 "y"]).
  - apply (bool_decide_unpack _). vm_compute. exact I.
  - repeat constructor.
Defined.

(** ** What the index writer leaves alone *)

Lemma upsert_app_fresh r (col added : list IndexRecord) :
  rec_id r ∉ rec_id <$> col → upsert r (col ++ added) = col ++ upsert r added.
Proof.
  intros Hfresh. unfold upsert. rewrite fmap_app.
  destruct (decide (rec_id r ∈ rec_id <$> added)) as [Hin|Hout].
  - rewrite decide_True by (apply elem_of_app; by right).
    rewrite fmap_app. f_equal.
    rewrite <- (list_fmap_id col) at 2. apply list_fmap_ext.
    intros i x Hx. simpl. rewrite decide_False; [done|].
    intros Heq. apply Hfresh. rewrite <- Heq.
    apply list_elem_of_fmap_2. by apply list_elem_of_lookup_2 in Hx.
  - rewrite decide_False by (intros [?|?]%elem_of_app; done).
    by rewrite <- app_assoc.
Qed.

Lemma add_records_app_fresh (col added : list IndexRecord) batch :
  Forall (λ c, id_string c ∉ rec_id <$> col) batch →
  add_records (col ++ added) batch = col ++ add_records added batch.
Proof.
  unfold add_records. intros Hfresh. revert added.
  induction Hfresh as [|c batch Hc Hbatch IH]; intros added; [done|].
  rewrite fmap_cons. cbn [zip zip_with foldl].
  rewrite upsert_app_fresh by done. apply IH.
Qed.

Lemma foldl_add_records_app_fresh (col added : list IndexRecord) batches :
  Forall (λ c, id_string c ∉ rec_id <$> col) (concat batches) →
  foldl add_records (col ++ added) batches = col ++ foldl add_records added batches.
Proof.
  revert added. induction batches as [|b batches IH]; intros added Hfresh; [done|].
  cbn [concat] in Hfresh. apply Forall_app in Hfresh as [Hb Hrest].
  cbn [foldl]. rewrite add_records_app_fresh by done. by apply IH.
Qed.

Lemma new_chunks_fresh db chunks :
  Forall (λ c, id_string c ∉ rec_id <$> collection db) (new_chunks_of db chunks).
Proof.
  pose proof (new_chunks_identified db chunks) as Hid.
  apply Forall_forall. intros c Hc.
  rewrite Forall_forall in Hid. specialize (Hid c Hc).
  unfold new_chunks_of in Hc. apply list_elem_of_filter in Hc as [Hnew _].
  unfold is_new in Hnew. rewrite (identified_get _ Hid) in Hnew.
  intros Hin. apply Hnew. by apply list_elem_of_fmap_2.
Qed.

Lemma add_to_chroma_prefix db chunks :
  collection db ++ foldl add_records [] (batches_of (new_chunks_of db chunks)) =
  foldl add_records (collection db) (batches_of (new_chunks_of db chunks)).
Proof.
  pose proof (new_chunks_fresh db chunks) as Hfresh.
  destruct (batches_of_spec (new_chunks_of db chunks)) as (Hcat & _).
  rewrite <- (app_nil_r (collection db)) at 2. symmetry.
  apply foldl_add_records_app_fresh. by rewrite Hcat.
Qed.

(** The ids after a run: the old ids and the ids of the chunks. *)
Lemma add_to_chroma_ids db chunks :
  ∃ db', add_to_chroma db chunks = Ok db' ∧
    ∀ id, id ∈ ids (db_get db') ↔
          id ∈ ids (db_get db) ∨
          Some (VStr id) ∈ chunk_ids (calculate_chunk_ids chunks).
Proof.
  pose proof (new_chunks_identified db chunks) as Hid.
  destruct (batches_of_spec (new_chunks_of db chunks)) as (Hcat & _).
  eexists. split; [apply add_to_chroma_spec|]. cbn [collection db_get ids].
  intros id. rewrite foldl_add_records_ids, Hcat. unfold chunk_ids.
  rewrite !list_elem_of_fmap. split.
  - intros [Hold|(c & -> & Hc)]; [by left|]. right. exists c.
    rewrite Forall_forall in Hid. destruct (Hid c Hc) as [id Hcid].
    unfold id_string, get. rewrite Hcid. split; [done|].
    unfold new_chunks_of in Hc. by apply list_elem_of_filter in Hc as [_ Hc].
  - intros [Hold|(c & Hcid & Hc)]; [by left|].
    destruct (decide (is_new (VStr <$> ids (db_get db)) c)) as [Hnew|Hnot].
    + right. exists c. split.
      * unfold id_string, get. by rewrite <- Hcid.
      * unfold new_chunks_of. by apply list_elem_of_filter.
    + left. unfold is_new in Hnot. apply dec_stable in Hnot.
      unfold get in Hnot. rewrite <- Hcid in Hnot. simpl in Hnot.
      apply (list_elem_of_fmap_inj_2 VStr) in Hnot.
      by apply list_elem_of_fmap in Hnot.
Qed.

(** X5.  The ingestion step always returns, and it only appends: the records
    the store held come first in the new collection, unchanged and in their
    order, also when a chunk of the same id has another text by now.  The
    records behind them are made from chunks of the list whose ids the store
    did not hold, so that the ids of the new store are the old ids and the
    ids of the chunks. *)
Theorem add_to_chroma_appends (db : Chroma) (chunks : list Document) :
  ∃ db' added,
    add_to_chroma db chunks = Ok db' ∧
    collection db' = collection db ++ added ∧
    Forall (λ r, (rec_id r ∉ ids (db_get db)) ∧
                 (∃ c, c ∈ calculate_chunk_ids chunks ∧
                       r = record_of c (id_string c))) added ∧
    ∀ id, id ∈ ids (db_get db') ↔
          id ∈ ids (db_get db) ∨
          Some (VStr id) ∈ chunk_ids (calculate_chunk_ids chunks).
Proof.
  pose proof (new_chunks_fresh db chunks) as Hfresh.
  destruct (batches_of_spec (new_chunks_of db chunks)) as (Hcat & _).
  destruct (add_to_chroma_ids db chunks) as (db' & Hadd & Hids).
  exists db', (foldl add_records [] (batches_of (new_chunks_of db chunks))).
  split; [done|]. rewrite add_to_chroma_spec in Hadd. simplify_eq/=.
  split; [by rewrite add_to_chroma_prefix|]. split; [|exact Hids].
  apply foldl_add_records_Forall; [constructor|]. rewrite Hcat.
  apply Forall_forall. intros c Hc. split.
  - rewrite Forall_forall in Hfresh. by apply Hfresh.
  - exists c. split; [|done].
    unfold new_chunks_of in Hc. by apply list_elem_of_filter in Hc as [_ Hc].
Qed.

(** ** The batches *)

Lemma range_loop_lookup fuel start stop i :
  stop - start ≤ fuel →
  range_loop fuel start stop BATCH_SIZE !! i =
  if decide (start + BATCH_SIZE * i < stop) then Some (start + BATCH_SIZE * i) else None.
Proof.
  revert start i. induction fuel as [|fuel IH]; intros start i Hfuel; cbn [range_loop].
  - rewrite decide_False by lia. done.
  - destruct (decide (start < stop)) as [Hlt|Hge].
    + destruct i as [|i].
      * rewrite decide_True by lia. cbn [lookup list_lookup]. f_equal. lia.
      * cbn [lookup list_lookup]. change (range_loop fuel (start + BATCH_SIZE) stop BATCH_SIZE !! i
          = if decide (start + BATCH_SIZE * S i < stop)
            then Some (start + BATCH_SIZE * S i) else None).
        rewrite IH by (unfold BATCH_SIZE; lia).
        replace (start + BATCH_SIZE + BATCH_SIZE * i) with (start + BATCH_SIZE * S i) by lia.
        done.
    + rewrite decide_False by lia. done.
Qed.

Lemma batches_of_lookup (new_chunks : list Document) i :
  batches_of new_chunks !! i =
  if decide (50 * i < length new_chunks)
  then Some (take 50 (drop (50 * i) new_chunks))
  else None.
Proof.
  unfold batches_of, slices, range. rewrite list_lookup_fmap.
  rewrite range_loop_lookup by lia. unfold BATCH_SIZE. cbn [Nat.add].
  case_decide; [|done]. cbn [fmap option_fmap option_map]. unfold slice.
  do 2 f_equal. lia.
Qed.

(** X6.  The write calls of the ingestion step, for any number of new
    chunks: call [i] carries the chunks [50 i, 50 i + 50) of the list of new
    chunks, so every call but the last carries exactly 50, and there is a
    call [i] only while [50 i] is below the number of new chunks (none at
    all when no chunk is new). *)
Theorem add_to_chroma_batch_contents (db : Chroma) (chunks : list Document) :
  ∃ db' new_chunks batches,
    select_new_chunks (remove_dups (VStr <$> ids (db_get db)))
                      (calculate_chunk_ids chunks) = Ok new_chunks ∧
    add_to_chroma db chunks = Ok db' ∧
    write_log db' = write_log db ++ (batch_call <$> batches) ∧
    ∀ i, batches !! i =
         if decide (50 * i < length new_chunks)
         then Some (take 50 (drop (50 * i) new_chunks))
         else None.
Proof.
  eexists _, (new_chunks_of db chunks), (batches_of (new_chunks_of db chunks)).
  split; [apply select_new_chunks_spec|].
  split; [apply add_to_chroma_spec|]. split; [done|].
  apply batches_of_lookup.
Qed.

(** ** Rename detection *)

Lemma first_same_basename_find old current :
  first_same_basename (VStr old) (VStr <$> current)
  = Ok (VStr <$> first_match old current).
Proof.
  unfold first_match. induction current as [|c current IH]; [done|].
  rewrite fmap_cons. cbn [first_same_basename List.find].
  unfold basename at 1 2. cbn [as_str mbind result_bind].
  destruct (decide (path_basename old = path_basename c)) as [Heq|Hne].
  - by rewrite bool_decide_eq_true_2.
  - by rewrite bool_decide_eq_false_2.
Qed.

Lemma dict_set_fresh d k v :
  k ∉ d.*1 → dict_set d k v = d ++ [(k, v)].
Proof.
  induction d as [|[k' v'] d IH]; [done|]. intros Hk.
  apply not_elem_of_cons in Hk as [Hne Hk]. simpl.
  rewrite decide_False by done. by rewrite IH.
Qed.

Lemma renamed_entry_key current old kv :
  renamed_entry current old = Some kv → kv.1 = VStr old.
Proof.
  unfold renamed_entry. case_decide; [done|].
  destruct (first_match old current); intros; by simplify_eq/=.
Qed.

Lemma omap_renamed_keys current existing k :
  k ∈ (omap (renamed_entry current) existing).*1 → ∃ old, k = VStr old ∧ old ∈ existing.
Proof.
  intros (kv & -> & Hkv)%list_elem_of_fmap.
  apply list_elem_of_omap in Hkv as (old & Hold & Hentry).
  apply renamed_entry_key in Hentry. eauto.
Qed.

Lemma detect_renamed_loop_omap acc existing current :
  NoDup existing →
  (∀ old, old ∈ existing → VStr old ∉ acc.*1) →
  detect_renamed_loop acc (VStr <$> existing) (VStr <$> current)
  = Ok (acc ++ omap (renamed_entry current) existing).
Proof.
  intros Hnd. revert acc.
  induction Hnd as [|old existing Hnotin Hnd IH]; intros acc Hacc.
  { simpl. by rewrite app_nil_r. }
  rewrite fmap_cons. cbn [detect_renamed_loop omap list_omap].
  unfold renamed_entry at 1.
  destruct (decide (old ∈ current)) as [Hin|Hout].
  - rewrite decide_False by (intros Hn; apply Hn; by apply list_elem_of_fmap_2).
    apply IH. intros; apply Hacc; by right.
  - rewrite decide_True by (by rewrite (list_elem_of_fmap_inj VStr)).
    rewrite first_same_basename_find. cbn [mbind result_bind].
    destruct (first_match old current) as [new|]; simpl.
    + rewrite dict_set_fresh by (apply Hacc; by left).
      rewrite IH; [by rewrite <- app_assoc|].
      intros old' Hold'. rewrite fmap_app. intros [Hin|Hin]%elem_of_app.
      * revert Hin. apply Hacc. by right.
      * simpl in Hin. apply list_elem_of_singleton in Hin. simplify_eq. done.
    + apply IH. intros; apply Hacc; by right.
Qed.

Lemma find_first {A} (p : A → bool) (l : list A) x :
  List.find p l = Some x ↔
  ∃ pre post, l = pre ++ x :: post ∧ p x = true ∧ Forall (λ y, p y = false) pre.
Proof.
  split.
  - induction l as [|y l IH]; [done|]. simpl. destruct (p y) eqn:Hy.
    + intros [= ->]. exists [], l. by repeat split.
    + intros (pre & post & -> & ? & ?)%IH. exists (y :: pre), post.
      repeat split; auto.
  - intros (pre & post & -> & Hx & Hpre).
    induction Hpre as [|y pre Hy Hpre IH]; simpl; [by rewrite Hx|by rewrite Hy].
Qed.

(** X7.  Rename detection, on sources that are strings: the result maps each
    existing source that is not current and whose basename some current
    source has to the first such current source, in the iteration order of
    the current sources; every other existing source is left out, and no
    key occurs twice. *)
Theorem detect_renamed_files_spec (existing current : list string) :
  NoDup existing →
  ∃ renamed,
    detect_renamed_files (VStr <$> existing) (VStr <$> current) = Ok renamed ∧
    NoDup (renamed.*1) ∧
    ∀ k v, (k, v) ∈ renamed ↔
      ∃ old new pre post,
        k = VStr old ∧ v = VStr new ∧
        old ∈ existing ∧ (old ∉ current) ∧
        current = pre ++ new :: post ∧
        path_basename new = path_basename old ∧
        Forall (λ c, path_basename c ≠ path_basename old) pre.
Proof.
  intros Hnd. exists (omap (renamed_entry current) existing).
  split; [|split].
  - unfold detect_renamed_files.
    rewrite (detect_renamed_loop_omap [] existing current Hnd); [done|].
    intros old _ Hin. by apply elem_of_nil in Hin.
  - clear -Hnd. induction Hnd as [|old existing Hnotin Hnd IH]; [constructor|].
    cbn [omap list_omap]. destruct (renamed_entry current old) as [kv|] eqn:Hentry; [|done].
    rewrite fmap_cons. constructor; [|done].
    rewrite (renamed_entry_key _ _ _ Hentry).
    intros (old' & [= <-] & Hold')%omap_renamed_keys. done.
  - intros k v. rewrite list_elem_of_omap. unfold renamed_entry, first_match. split.
    + intros (old & Hold & Hentry). case_decide as Hcur; [done|].
      destruct (List.find _ current) as [new|] eqn:Hfind; simplify_eq/=.
      apply find_first in Hfind as (pre & post & -> & Hnew & Hpre).
      exists old, new, pre, post. apply bool_decide_eq_true in Hnew.
      repeat split; auto.
      eapply Forall_impl; [exact Hpre|]. intros c Hc%bool_decide_eq_false. congruence.
    + intros (old & new & pre & post & -> & -> & Hold & Hcur & -> & Hnew & Hpre).
      exists old. split; [done|]. rewrite decide_False by done.
      assert (List.find (λ c, bool_decide (path_basename old = path_basename c))
                (pre ++ new :: post) = Some new) as ->; [|done].
      apply find_first. exists pre, post. split; [done|]. split.
      * by apply bool_decide_eq_true.
      * eapply Forall_impl; [exact Hpre|]. intros c Hc. apply bool_decide_eq_false. congruence.
Qed.

Lemma detect_renamed_files_spec_witness :
  ∃ renamed,
    detect_renamed_files (VStr <$> ["/old/a.pdf"; "/data/c.pdf"; "/old/d.pdf"])
                         (VStr <$> ["/data/b.pdf"; "/data/a.pdf"; "/data/c.pdf"])
      = Ok renamed ∧
    NoDup (renamed.*1) ∧
    ∀ k v, (k, v) ∈ renamed ↔
      ∃ old new pre post,
        k = VStr old ∧ v = VStr new ∧
        old ∈ ["/old/a.pdf"; "/data/c.pdf"; "/old/d.pdf"] ∧
        (old ∉ ["/data/b.pdf"; "/data/a.pdf"; "/data/c.pdf"]) ∧
        ["/data/b.pdf"; "/data/a.pdf"; "/data/c.pdf"] = pre ++ new :: post ∧
        path_basename new = path_basename old ∧
        Forall (λ c, path_basename c ≠ path_basename old) pre.
Proof.
  apply (detect_renamed_files_spec ["/old/a.pdf"; "/data/c.pdf"; "/old/d.pdf"]
           ["/data/b.pdf"; "/data/a.pdf"; "/data/c.pdf"]).
  apply (bool_decide_unpack _). vm_compute. exact I.
Defined.

(** *** Renames inside one directory *)

Lemma has_slash_app s t : has_slash (s +:+ t) = has_slash s || has_slash t.
Proof.
  induction s as [|c s IH]; [done|].
  rewrite append_cons. simpl. rewrite IH. by rewrite orb_assoc.
Qed.

Lemma path_basename_app dir name :
  has_slash name = false → path_basename (dir +:+ "/" +:+ name) = name.
Proof.
  intros Hname. induction dir as [|c dir IH].
  - rewrite append_nil_l. change ("/" +:+ name) with (String "/" name).
    cbn [path_basename]. rewrite Hname. done.
  - rewrite append_cons. cbn [path_basename].
    rewrite has_slash_app. change ("/" +:+ name) with (String "/" name).
    cbn [has_slash]. replace (is_slash "/") with true by done.
    rewrite orb_true_r. exact IH.
Qed.

Lemma directly_in_basename dir p q :
  directly_in dir p → directly_in dir q → path_basename p = path_basename q → p = q.
Proof.
  intros (f & -> & Hf) (g & -> & Hg).
  rewrite !path_basename_app by done. by intros ->.
Qed.

Lemma first_same_basename_none dir old (current : list string) :
  directly_in dir old → Forall (directly_in dir) current → old ∉ current →
  first_same_basename (VStr old) (VStr <$> current) = Ok None.
Proof.
  intros Hold Hcur Hout. induction Hcur as [|c current Hc Hcur IH]; [done|].
  apply not_elem_of_cons in Hout as [Hne Hout].
  rewrite fmap_cons. cbn [first_same_basename].
  unfold basename at 1 2. cbn [as_str mbind result_bind].
  rewrite decide_False; [by apply IH|].
  intros Heq. apply Hne. by apply (directly_in_basename dir).
Qed.

Lemma detect_renamed_loop_same_directory dir acc (existing current : list string) :
  Forall (directly_in dir) existing → Forall (directly_in dir) current →
  detect_renamed_loop acc (VStr <$> existing) (VStr <$> current) = Ok acc.
Proof.
  intros Hex Hcur. induction Hex as [|old existing Hold Hex IH]; [done|].
  rewrite fmap_cons. cbn [detect_renamed_loop].
  case_decide as Hout; [|done].
  rewrite (first_same_basename_none dir); [done..|].
  intros Hin. apply Hout. by apply list_elem_of_fmap_2.
Qed.

(** X8.  Rename detection finds nothing inside one directory: when the
    existing and the current sources are all files that lie directly in the
    same directory, as the sources the scanner computes and the index
    writer stores, [detect_renamed_files] returns the empty dictionary,
    whatever was renamed: two such paths with the same basename are the
    same path. *)
Theorem detect_renamed_files_same_directory (dir : string)
    (existing current : list string) :
  Forall (directly_in dir) existing → Forall (directly_in dir) current →
  detect_renamed_files (VStr <$> existing) (VStr <$> current) = Ok [].
Proof. apply detect_renamed_loop_same_directory. Qed.

Lemma detect_renamed_files_same_directory_witness :
  detect_renamed_files (VStr <$> ["/data/a.pdf"; "/data/c.pdf"])
                       (VStr <$> ["/data/b.pdf"; "/data/c.pdf"]) = Ok [].
Proof.
  apply (detect_renamed_files_same_directory "/data" ["/data/a.pdf"; "/data/c.pdf"]
           ["/data/b.pdf"; "/data/c.pdf"]).
  - repeat constructor; by eexists.
  - repeat constructor; by eexists.
Defined.

(** ** Rewriting the source of a file's records *)

Lemma update_source_loop_fold db rs old_source new_source :
  Forall well_formed_record rs →
  update_source_loop db (rec_metadata <$> rs) old_source new_source =
  Ok {| collection := foldl (update_turn old_source new_source) (collection db) rs;
        write_log := write_log db ++
          (update_call new_source <$> filter (λ r, source_of r = old_source) rs) |}.
Proof.
  intros Hwf. revert db. induction Hwf as [|r rs Hr Hrs IH]; intros db.
  { simpl. rewrite app_nil_r. by destruct db. }
  rewrite fmap_cons. cbn [update_source_loop foldl].
  rewrite (wf_getitem_source _ Hr). cbn [mbind result_bind].
  rewrite filter_cons. unfold update_turn at 2.
  destruct (decide (source_of r = old_source)) as [Heq|Hne].
  - rewrite (wf_getitem_id _ Hr). cbn [mbind result_bind].
    unfold db_update. cbn [as_str mbind result_bind].
    rewrite IH. cbn [collection write_log]. rewrite fmap_cons.
    by rewrite <- app_assoc.
  - by rewrite IH.
Qed.

Lemma update_turns_pointwise old_source new_source rs col :
  NoDup (rec_id <$> rs) →
  (∀ x r, x ∈ col → r ∈ rs → rec_id x = rec_id r → x = r) →
  foldl (update_turn old_source new_source) col rs =
  (λ x, if decide (x ∈ rs ∧ source_of x = old_source)
        then with_source new_source x else x) <$> col.
Proof.
  revert col. induction rs as [|r rs IH]; intros col Hnd Hsame.
  { simpl. rewrite <- (list_fmap_id col) at 1. apply list_fmap_ext.
    intros i x _. by simpl. }
  rewrite fmap_cons in Hnd. apply NoDup_cons in Hnd as [Hr Hnd].
  assert (∀ r', r' ∈ rs → rec_id r' ≠ rec_id r) as Hfresh.
  { intros r' Hr' Heq. apply Hr. rewrite <- Heq. by apply list_elem_of_fmap_2. }
  cbn [foldl]. rewrite IH; [|done|].
  - unfold update_turn. destruct (decide (source_of r = old_source)) as [Heq|Hne].
    + rewrite <- list_fmap_compose. apply list_fmap_ext. intros i x Hx. simpl.
      apply list_elem_of_lookup_2 in Hx.
      destruct (decide (rec_id x = rec_id r)) as [Hid|Hid].
      * assert (x = r) as -> by (apply Hsame; [done|by left|done]).
        rewrite decide_False.
        2:{ intros [Hin _]. by apply (Hfresh _ Hin). }
        rewrite decide_True; [done|]. split; [by left|done].
      * destruct (decide (x ∈ rs ∧ source_of x = old_source)) as [[??]|Hn].
        -- rewrite decide_True; [done|]. split; [by right|done].
        -- rewrite decide_False; [done|]. intros [[->|?]%elem_of_cons ?]; [done|].
           by apply Hn.
    + apply list_fmap_ext. intros i x Hx. simpl.
      apply list_elem_of_lookup_2 in Hx.
      destruct (decide (x ∈ rs ∧ source_of x = old_source)) as [[??]|Hn].
      * rewrite decide_True; [done|]. split; [by right|done].
      * rewrite decide_False; [done|]. intros [[->|?]%elem_of_cons ?]; [done|].
        by apply Hn.
  - intros x r' Hx Hr' Hid. unfold update_turn in Hx.
    destruct (decide (source_of r = old_source)) as [Heq|Hne].
    + apply list_elem_of_fmap in Hx as (x0 & -> & Hx0).
      destruct (decide (rec_id x0 = rec_id r)) as [Hid0|Hid0].
      * simpl in Hid. exfalso. apply (Hfresh r' Hr'). congruence.
      * apply Hsame; [done|by right|done].
    + apply Hsame; [done|by right|done].
Qed.

(** X9.  Called on a store that still holds the records of the old source and
    is as the index writer leaves it, [update_source_in_db] returns; it
    rewrites the source of exactly these records, which keep their ids,
    texts, other metadata and places, and it issues one update call per
    such record, in the order of the collection. *)
Theorem update_source_in_db_spec (db : Chroma) (old_source new_source : value) :
  well_formed db →
  update_source_in_db db old_source new_source =
  Ok {| collection :=
          (λ r, if decide (source_of r = old_source)
                then with_source new_source r else r) <$> collection db;
        write_log := write_log db ++
          (update_call new_source <$>
             filter (λ r, source_of r = old_source) (collection db)) |}.
Proof.
  intros [Hnd Hwf]. unfold update_source_in_db. cbn [metadatas db_get].
  rewrite (update_source_loop_fold _ _ _ _ Hwf). do 2 f_equal.
  rewrite update_turns_pointwise; [|done|].
  - apply list_fmap_ext. intros i x Hx. apply list_elem_of_lookup_2 in Hx.
    destruct (decide (source_of x = old_source)).
    + by rewrite decide_True.
    + rewrite decide_False; [done|]. by intros [_ ?].
  - intros x r Hx Hr Hid. by apply (NoDup_fmap_eq rec_id (collection db)).
Qed.

Lemma update_source_in_db_spec_witness :
  update_source_in_db two_files_index (VStr "/data/a.pdf") (VStr "/data/c.pdf") =
  Ok {| collection :=
          (λ r, if decide (source_of r = VStr "/data/a.pdf")
                then with_source (VStr "/data/c.pdf") r else r)
            <$> collection two_files_index;
        write_log := write_log two_files_index ++
          (update_call (VStr "/data/c.pdf") <$>
             filter (λ r, source_of r = VStr "/data/a.pdf")
                    (collection two_files_index)) |}.
Proof.
  apply (update_source_in_db_spec two_files_index (VStr "/data/a.pdf") (VStr "/data/c.pdf")).
  exact two_files_well_formed.
Defined.

(** ** The calls of a synchronisation pass *)

Section SyncCalls.
Variable DATA_PATH : string.
Variable abspath : string → string.

Lemma sync_with_directory_calls db listdir :
  well_formed db →
  sync_with_directory DATA_PATH abspath db listdir =
  Ok {| collection :=
          filter (λ r, source_of r ∉ removed_sources_of DATA_PATH abspath db listdir)
                 (collection db);
        write_log := write_log db ++
          match removed_sources_of DATA_PATH abspath db listdir with
          | [] => []
          | removed =>
              [Delete (rec_id <$> filter (λ r, source_of r ∈ removed) (collection db))]
          end |}.
Proof.
  intros [Hnd Hwf]. unfold sync_with_directory.
  cbn [metadatas db_get]. rewrite (sources_of_ok _ Hwf). cbn [mbind result_bind].
  fold (removed_sources_of DATA_PATH abspath db listdir).
  set (current := scan_current_sources DATA_PATH abspath listdir).
  set (kept := filter (λ r, source_of r ∉ removed_sources_of DATA_PATH abspath db listdir)
                 (collection db)).
  assert (Forall (λ r, source_of r ∈ current) kept) as Hkept.
  { apply Forall_forall. intros r Hr. apply list_elem_of_filter in Hr as [Hnot Hr].
    destruct (decide (source_of r ∈ current)) as [|Hout]; [done|].
    exfalso. apply Hnot. apply list_elem_of_difference. split; [|done].
    apply elem_of_remove_dups. by apply list_elem_of_fmap_2. }
  assert (Forall well_formed_record kept) as Hwfk.
  { apply Forall_forall. intros r Hr. apply list_elem_of_filter in Hr as [_ Hr].
    rewrite Forall_forall in Hwf. auto. }
  assert (Forall is_str (remove_dups (source_of <$> collection db))) as Hstr.
  { apply Forall_forall. intros v Hv.
    apply elem_of_remove_dups, list_elem_of_fmap in Hv as (r & -> & Hr).
    rewrite Forall_forall in Hwf. by apply wf_source_is_str, Hwf. }
  destruct (detect_renamed_loop_ok [] (remove_dups (source_of <$> collection db))
              current Hstr (scan_current_sources_is_str DATA_PATH abspath listdir)
              (Forall_nil_2 _))
    as (renamed & Hdetect & Hkeys).
  destruct (removed_sources_of DATA_PATH abspath db listdir) as [|v removed] eqn:Hremoved.
  - cbn [mbind result_bind].
    unfold detect_renamed_files. fold current. rewrite Hdetect. cbn [mbind result_bind].
    assert (kept = collection db) as Hall.
    { apply filter_all. apply Forall_forall. intros r _. apply not_elem_of_nil. }
    rewrite Hall in Hkept.
    rewrite (update_renamed_noop db current renamed Hwf Hkept Hkeys).
    rewrite app_nil_r. subst kept. rewrite Hall. by destruct db.
  - rewrite (removed_ids_of_ok _ _ Hwf). cbn [mbind result_bind].
    rewrite db_delete_ok. cbn [mbind result_bind].
    rewrite (filter_removed_ids DATA_PATH abspath _ _ Hnd).
    unfold detect_renamed_files. fold current. rewrite Hdetect. cbn [mbind result_bind].
    by rewrite (update_renamed_noop (mkChroma kept _) current renamed Hwfk Hkept Hkeys).
Qed.

(** X10.  The write calls of a synchronisation pass on a store as the index
    writer leaves it: none when every record names a current source;
    otherwise one delete call and nothing else, never an update, and the
    call carries the ids of exactly the records whose source is not
    current. *)
Theorem sync_with_directory_write_calls (db : Chroma) (listdir : list string) :
  well_formed db →
  ∃ db',
    sync_with_directory DATA_PATH abspath db listdir = Ok db' ∧
    (write_log db' = write_log db ∧
       Forall (λ r, source_of r ∈ scan_current_sources DATA_PATH abspath listdir)
              (collection db)
     ∨ ∃ ids, write_log db' = write_log db ++ [Delete ids] ∧ ids ≠ [] ∧
         ∀ id, id ∈ ids ↔
               ∃ r, r ∈ collection db ∧ rec_id r = id ∧
                    source_of r ∉ scan_current_sources DATA_PATH abspath listdir).
Proof.
  intros Hwf. eexists. split; [by apply sync_with_directory_calls|].
  cbn [write_log].
  assert (∀ r, r ∈ collection db →
            (source_of r ∈ removed_sources_of DATA_PATH abspath db listdir ↔
             source_of r ∉ scan_current_sources DATA_PATH abspath listdir)) as Hrem.
  { intros r Hr. unfold removed_sources_of. rewrite list_elem_of_difference.
    rewrite elem_of_remove_dups. split; [by intros [_ ?]|]. intros Hout.
    split; [by apply list_elem_of_fmap_2|done]. }
  destruct (removed_sources_of DATA_PATH abspath db listdir) as [|v removed] eqn:Hremoved.
  - left. split; [by rewrite app_nil_r|].
    apply Forall_forall. intros r Hr.
    destruct (decide (source_of r ∈ scan_current_sources DATA_PATH abspath listdir))
      as [|Hout]; [done|].
    apply Hrem in Hout; [|done]. by apply elem_of_nil in Hout.
  - right. eexists. split; [done|]. split.
    + assert (v ∈ removed_sources_of DATA_PATH abspath db listdir) as Hv
        by (rewrite Hremoved; by left).
      unfold removed_sources_of in Hv.
      apply list_elem_of_difference in Hv as [Hv _].
      apply elem_of_remove_dups, list_elem_of_fmap in Hv as (r & Hsrc & Hr).
      intros Hnil.
      assert (rec_id r ∈ rec_id <$> filter (λ r, source_of r ∈ v :: removed) (collection db))
        as Hin.
      { apply list_elem_of_fmap_2, list_elem_of_filter. split; [|done].
        rewrite <- Hsrc. by left. }
      rewrite Hnil in Hin. by apply elem_of_nil in Hin.
    + intros id. rewrite list_elem_of_fmap. split.
      * intros (r & -> & [Hsrc Hr]%list_elem_of_filter).
        exists r. repeat split; [done|]. by apply Hrem.
      * intros (r & Hr & <- & Hout). exists r. split; [done|].
        apply list_elem_of_filter. split; [|done]. by apply Hrem.
Qed.

(** X11.  One record without a source is enough to stop every synchronisation
    pass: the first comprehension raises [KeyError], whatever the directory
    holds. *)
Theorem sync_with_directory_missing_source (db : Chroma) (listdir : list string)
    (r : IndexRecord) :
  r ∈ collection db → rec_metadata r !! "source" = None →
  sync_with_directory DATA_PATH abspath db listdir = Raise (KeyError "source").
Proof.
  intros Hr Hnone. unfold sync_with_directory, sources_of. cbn [metadatas db_get].
  assert (comprehension (λ item, getitem item "source") (rec_metadata <$> collection db)
          = Raise (KeyError "source")) as ->; [|done].
  induction (collection db) as [|x col IH]; [by apply elem_of_nil in Hr|].
  rewrite fmap_cons. cbn [comprehension].
  apply elem_of_cons in Hr as [<-|Hr].
  - unfold getitem. by rewrite Hnone.
  - rewrite (IH Hr). unfold getitem.
    by destruct (rec_metadata x !! "source").
Qed.

Lemma sync_with_directory_kept_current db listdir :
  Forall (λ r, source_of r ∈ scan_current_sources DATA_PATH abspath listdir)
    (filter (λ r, source_of r ∉ removed_sources_of DATA_PATH abspath db listdir)
            (collection db)).
Proof.
  apply Forall_forall. intros r Hr. apply list_elem_of_filter in Hr as [Hnot Hr].
  destruct (decide (source_of r ∈ scan_current_sources DATA_PATH abspath listdir))
    as [|Hout]; [done|].
  exfalso. apply Hnot. apply list_elem_of_difference. split; [|done].
  apply elem_of_remove_dups. by apply list_elem_of_fmap_2.
Qed.

(** X12.  A synchronisation pass is idempotent: on a store as the index
    writer leaves it the pass returns, and a second pass over the same
    directory listing returns the store of the first, with no further write
    call. *)
Theorem sync_with_directory_idempotent (db : Chroma) (listdir : list string) :
  well_formed db →
  ∃ db',
    sync_with_directory DATA_PATH abspath db listdir = Ok db' ∧
    sync_with_directory DATA_PATH abspath db' listdir = Ok db'.
Proof.
  intros Hwf.
  pose proof (sync_with_directory_calls db listdir Hwf) as Hsync.
  eexists. split; [exact Hsync|].
  apply sync_with_directory_current.
  - by apply (sync_with_directory_well_formed DATA_PATH abspath db listdir _ Hwf).
  - apply sync_with_directory_kept_current.
Qed.

End SyncCalls.

Lemma sync_with_directory_write_calls_witness :
  ∃ db',
    sync_with_directory "/data" (λ p, p) two_files_index ["b.pdf"] = Ok db' ∧
    (write_log db' = write_log two_files_index ∧
       Forall (λ r, source_of r ∈ scan_current_sources "/data" (λ p, p) ["b.pdf"])
              (collection two_files_index)
     ∨ ∃ ids, write_log db' = write_log two_files_index ++ [Delete ids] ∧ ids ≠ [] ∧
         ∀ id, id ∈ ids ↔
               ∃ r, r ∈ collection two_files_index ∧ rec_id r = id ∧
                    source_of r ∉ scan_current_sources "/data" (λ p, p) ["b.pdf"]).
Proof.
  apply (sync_with_directory_write_calls "/data" (λ p, p) two_files_index ["b.pdf"]).
  exact two_files_well_formed.
Defined.

Lemma sync_with_directory_missing_source_witness :
  sync_with_directory "/data" (λ p, p) unsourced_index ["a.pdf"]
  = Raise (KeyError "source").
Proof.
  apply (sync_with_directory_missing_source "/data" (λ p, p) unsourced_index ["a.pdf"]
           (mkRecord "x" "text" {["id" := VStr "x"]})).
  - right. left.
  - reflexivity.
Defined.

Lemma sync_with_directory_idempotent_witness :
  ∃ db',
    sync_with_directory "/data" (λ p, p) two_files_index ["b.pdf"] = Ok db' ∧
    sync_with_directory "/data" (λ p, p) db' ["b.pdf"] = Ok db'.
Proof.
  apply (sync_with_directory_idempotent "/data" (λ p, p) two_files_index ["b.pdf"]).
  exact two_files_well_formed.
Defined.

(** ** The entry point *)

Section MainMore.
Variable DATA_PATH : string.
Variable abspath : string → string.
Variable split_documents : list Document → list Document.

(** X13.  A run of the entry point on a store as the index writer leaves
    it, with a loader that reports the files under the paths the scanner
    computes: the run returns, and a second run on the unchanged corpus
    returns the same store, write log included; the store has one record
    per id, every record names a file of the directory, and the ids are
    those of the chunks of the corpus together with those of the old
    records whose file is still there. *)
Theorem main_establishes_consistency (reset : bool) (corpus : Corpus) (db : Chroma) :
  well_formed db →
  Forall (λ c, get (metadata c) "source"
                 ∈ scan_current_sources DATA_PATH abspath (listdir corpus))
         (split_documents (load_documents corpus)) →
  ∃ db1,
    main DATA_PATH abspath split_documents reset corpus db = Ok db1 ∧
    main DATA_PATH abspath split_documents false corpus db1 = Ok db1 ∧
    well_formed db1 ∧
    Forall (λ r, source_of r ∈ scan_current_sources DATA_PATH abspath (listdir corpus))
           (collection db1) ∧
    ∀ id, id ∈ ids (db_get db1) ↔
          Some (VStr id) ∈
            chunk_ids (calculate_chunk_ids (split_documents (load_documents corpus))) ∨
          reset = false ∧
          ∃ r, r ∈ collection db ∧ rec_id r = id ∧
               source_of r ∈ scan_current_sources DATA_PATH abspath (listdir corpus).
Proof.
  intros Hwf Hsrc.
  pose proof (main_second_run_writes_nothing DATA_PATH abspath split_documents
                reset corpus db) as Hsecond.
  specialize (λ db1, Hsecond db1 Hwf Hsrc). unfold main in Hsecond |- *.
  set (current := scan_current_sources DATA_PATH abspath (listdir corpus)) in *.
  set (chunks := split_documents (load_documents corpus)) in *.
  set (db0 := if reset then clear_database db else db) in *.
  assert (well_formed db0) as Hwf0.
  { subst db0. destruct reset; [apply well_formed_empty|done]. }
  pose proof (sync_with_directory_calls DATA_PATH abspath db0 (listdir corpus) Hwf0) as Hsync.
  pose proof (sync_with_directory_well_formed DATA_PATH abspath _ _ _ Hwf0 Hsync) as Hwfs.
  pose proof (sync_with_directory_kept_current DATA_PATH abspath db0 (listdir corpus)) as Hcurs.
  rewrite Hsync in Hsecond |- *. cbn [mbind result_bind] in Hsecond |- *.
  set (dbs := {| collection := filter _ (collection db0); write_log := _ |}) in *.
  assert (Forall (λ c, is_str (get (metadata c) "source")) chunks) as Hstr.
  { eapply Forall_impl; [exact Hsrc|]. intros c Hc.
    pose proof (scan_current_sources_is_str DATA_PATH abspath (listdir corpus)) as Hall.
    rewrite Forall_forall in Hall. auto. }
  destruct (add_to_chroma_ids dbs chunks) as (db1 & Hadd & Hids).
  exists db1. split; [exact Hadd|]. split; [by apply Hsecond|].
  split; [by apply (add_to_chroma_well_formed dbs chunks)|]. split.
  - apply (add_to_chroma_Forall _ dbs chunks db1 Hcurs); [|done].
    apply (calculate_chunk_ids_source _ (λ v, v ∈ current)) in Hsrc.
    eapply Forall_impl; [exact Hsrc|]. by intros c Hc.
  - intros id. rewrite Hids. cbn [db_get ids]. subst dbs. cbn [collection].
    rewrite list_elem_of_fmap.
    assert (∀ r, r ∈ collection db0 →
              (source_of r ∉ removed_sources_of DATA_PATH abspath db0 (listdir corpus)
               ↔ source_of r ∈ current)) as Hkeep.
    { intros r Hr. unfold removed_sources_of. rewrite list_elem_of_difference.
      rewrite elem_of_remove_dups. fold current. split.
      - intros Hnot. destruct (decide (source_of r ∈ current)) as [|Hout]; [done|].
        exfalso. apply Hnot. split; [by apply list_elem_of_fmap_2|done].
      - intros Hin [_ Hout]. done. }
    split.
    + intros [(r & -> & [Hnot Hr]%list_elem_of_filter)|Hchunk]; [|by left].
      right. subst db0. destruct reset; [by apply elem_of_nil in Hr|].
      split; [done|]. exists r. repeat split; [done|]. by apply Hkeep.
    + intros [Hchunk|(-> & r & Hr & <- & Hcur)]; [by right|].
      left. exists r. split; [done|]. apply list_elem_of_filter.
      subst db0. split; [|done]. by apply Hkeep.
Qed.

(** X14.  The entry point never refreshes an indexed file: run without
    [--reset] on a store as the index writer leaves it, it returns, and
    every record whose source is a file of the directory is in the store
    afterwards as it was, with its text and its metadata, whatever the
    loader and the splitter return for the file now; the records of the
    store before the run come first, in their order. *)
Theorem main_keeps_current_records (corpus : Corpus) (db : Chroma) :
  well_formed db →
  ∃ db1 added,
    main DATA_PATH abspath split_documents false corpus db = Ok db1 ∧
    collection db1 =
      filter (λ r, source_of r ∈ scan_current_sources DATA_PATH abspath (listdir corpus))
             (collection db) ++ added ∧
    ∀ r, r ∈ collection db →
         source_of r ∈ scan_current_sources DATA_PATH abspath (listdir corpus) →
         r ∈ collection db1.
Proof.
  intros Hwf. unfold main.
  pose proof (sync_with_directory_calls DATA_PATH abspath db (listdir corpus) Hwf) as Hsync.
  rewrite Hsync. cbn [mbind result_bind].
  set (dbs := {| collection := filter _ (collection db); write_log := _ |}).
  set (chunks := split_documents (load_documents corpus)).
  assert (collection dbs =
          filter (λ r, source_of r ∈ scan_current_sources DATA_PATH abspath (listdir corpus))
                 (collection db)) as Hkept.
  { subst dbs. cbn [collection]. apply (filter_ext_in DATA_PATH abspath). intros r Hr.
    unfold removed_sources_of. rewrite list_elem_of_difference, elem_of_remove_dups.
    split.
    - intros Hnot.
      destruct (decide (source_of r ∈ scan_current_sources DATA_PATH abspath (listdir corpus)))
        as [|Hout]; [done|].
      exfalso. apply Hnot. split; [by apply list_elem_of_fmap_2|done].
    - by intros Hin [_ Hout]. }
  eexists _, (foldl add_records [] (batches_of (new_chunks_of dbs chunks))).
  split; [apply add_to_chroma_spec|]. cbn [collection].
  rewrite <- add_to_chroma_prefix, Hkept. split; [done|].
  intros r Hr Hcur. apply elem_of_app. left. by apply list_elem_of_filter.
Qed.

Lemma sync_with_directory_empty log listdir :
  sync_with_directory DATA_PATH abspath {| collection := []; write_log := log |} listdir
  = Ok {| collection := []; write_log := log |}.
Proof. done. Qed.

(** X15.  With [--reset] the entry point returns whatever the store held
    before, a store with malformed records included: it issues no delete
    and no update call, it writes every chunk of the corpus in batches, and
    the ids of the resulting store are the ids of the chunks. *)
Theorem main_reset_rebuilds (corpus : Corpus) (db : Chroma) :
  ∃ db1 batches,
    main DATA_PATH abspath split_documents true corpus db = Ok db1 ∧
    write_log db1 = write_log db ++ (batch_call <$> batches) ∧
    concat batches = calculate_chunk_ids (split_documents (load_documents corpus)) ∧
    ∀ id, id ∈ ids (db_get db1) ↔
          Some (VStr id) ∈
            chunk_ids (calculate_chunk_ids (split_documents (load_documents corpus))).
Proof.
  set (chunks := split_documents (load_documents corpus)).
  set (db0 := {| collection := []; write_log := write_log db |}).
  assert (new_chunks_of db0 chunks = calculate_chunk_ids chunks) as Hnew.
  { unfold new_chunks_of. apply filter_all. apply Forall_forall.
    intros c _. unfold is_new. simpl. apply not_elem_of_nil. }
  destruct (batches_of_spec (calculate_chunk_ids chunks)) as (Hcat & _).
  eexists _, (batches_of (calculate_chunk_ids chunks)).
  split; [|split; [|split]].
  - unfold main, clear_database. rewrite sync_with_directory_empty.
    cbn [mbind result_bind]. fold chunks. fold db0.
    rewrite add_to_chroma_spec, Hnew. done.
  - done.
  - done.
  - intros id. cbn [db_get ids collection].
    rewrite foldl_add_records_ids, Hcat. unfold chunk_ids.
    pose proof (calculate_chunk_ids_identified chunks) as Hid.
    rewrite Forall_forall in Hid. split.
    + intros [Hin|(c & -> & Hc)%list_elem_of_fmap]; [by apply elem_of_nil in Hin|].
      apply list_elem_of_fmap. exists c. split; [|done].
      destruct (Hid c Hc) as [id Hcid]. unfold id_string, get. by rewrite Hcid.
    + intros (c & Hcid & Hc)%list_elem_of_fmap. right.
      apply list_elem_of_fmap. exists c. split; [|done].
      unfold id_string, get. by rewrite <- Hcid.
Qed.

End MainMore.

Lemma main_establishes_consistency_witness :
  ∃ db1,
    main "/data" (λ p, p) (λ documents, documents) false sample_corpus two_files_index
      = Ok db1 ∧
    main "/data" (λ p, p) (λ documents, documents) false sample_corpus db1 = Ok db1 ∧
    well_formed db1 ∧
    Forall (λ r, source_of r ∈ scan_current_sources "/data" (λ p, p) (listdir sample_corpus))
           (collection db1) ∧
    ∀ id, id ∈ ids (db_get db1) ↔
          Some (VStr id) ∈
            chunk_ids (calculate_chunk_ids
                         ((λ documents, documents) (load_documents sample_corpus))) ∨
          false = false ∧
          ∃ r, r ∈ collection two_files_index ∧ rec_id r = id ∧
               source_of r ∈ scan_current_sources "/data" (λ p, p) (listdir sample_corpus).
Proof.
  apply (main_establishes_consistency "/data" (λ p, p) (λ documents, documents)
           false sample_corpus two_files_index).
  - exact two_files_well_formed.
  - apply (bool_decide_unpack _). vm_compute. exact I.
Defined.

Lemma main_keeps_current_records_witness :
  ∃ db1 added,
    main "/data" (λ p, p) (λ documents, documents) false sample_corpus two_files_index
      = Ok db1 ∧
    collection db1 =
      filter (λ r, source_of r ∈ scan_current_sources "/data" (λ p, p) (listdir sample_corpus))
             (collection two_files_index) ++ added ∧
    ∀ r, r ∈ collection two_files_index →
         source_of r ∈ scan_current_sources "/data" (λ p, p) (listdir sample_corpus) →
         r ∈ collection db1.
Proof.
  apply (main_keeps_current_records "/data" (λ p, p) (λ documents, documents)
           sample_corpus two_files_index).
  exact two_files_well_formed.
Defined.

End populate_database_proofs.

(** ** The supervisor *)

Module watcher_proofs.
Import watcher.

(** Unfolds a step down to the statement that runs. *)
Ltac unfold_step Hstep :=
  unfold step, main, restart_server, on_any_event in Hstep;
  simpl in Hstep; try discriminate Hstep.

Lemma invariant_initial : invariant initial.
Proof. split; [by left|done]. Qed.

Lemma invariant_step s i s' :
  invariant s → step s i = Some s' → invariant s'.
Proof.
  intros [Hlive Hquiet] Hstep.
  destruct s as [l sp lv n]. simpl in *.
  destruct i.
  - (* Tick *)
    destruct l; unfold_step Hstep; simplify_eq/=.
    + split; [right; rewrite Hquiet by done; eauto|done].
    + destruct sp as [p|]; simplify_eq/=.
      * by split.
      * split; [done|]. intros _. by destruct Hlive as [?|(p & _ & ?)].
    + destruct sp as [p|]; [|done]. case_decide as Hin; simplify_eq/=.
      split; [done|]. intros _.
      destruct Hlive as [?|(q & -> & ?)]; [done|]. simplify_eq.
      exfalso. apply Hin. by left.
    + split; [right; rewrite Hquiet by done; eauto|done].
    + destruct sp as [p|]; simplify_eq/=.
      * by split.
      * split; [done|]. intros _. by destruct Hlive as [?|(p & _ & ?)].
    + destruct sp as [p|]; [|done]. case_decide as Hin; simplify_eq/=.
      split; [done|]. intros _.
      destruct Hlive as [?|(q & -> & ?)]; [done|]. simplify_eq.
      exfalso. apply Hin. by left.
    + split; [right; rewrite Hquiet by done; eauto|done].
  - (* SyncDone *)
    destruct l; unfold_step Hstep; simplify_eq/=; unfold after_sync, run_check; case_decide;
      (split; simpl; [done|auto]).
  - (* SyncNotStarted *)
    destruct l; unfold_step Hstep; simplify_eq/=; (split; simpl; [done|auto]).
  - (* FsEvent *)
    destruct l; unfold_step Hstep; simplify_eq/=. destruct (ignored event); simplify_eq/=; by split.
  - (* ProcessExit *)
    unfold_step Hstep. case_decide as Hin; simplify_eq/=.
    destruct Hlive as [->|(q & -> & Hsp)]; [by apply elem_of_nil in Hin|].
    apply list_elem_of_singleton in Hin as ->.
    split; [left|intros _]; by rewrite filter_cons, decide_False by (by intros []).
  - (* Interrupt *)
    destruct l; unfold_step Hstep; simplify_eq/=; (split; simpl; [done|auto]).
Qed.

Lemma invariant_run s inputs s' :
  invariant s → run s inputs = Some s' → invariant s'.
Proof.
  revert s. induction inputs as [|i inputs IH]; intros s Hinv Hrun; simpl in Hrun.
  - by simplify_eq.
  - destruct (step s i) as [s1|] eqn:Hstep; [|done].
    eauto using invariant_step.
Qed.

Lemma spawn_step s i s' :
  step s i = Some s' → spawned s' ≠ spawned s →
  i = Tick ∧ quiet (pc s) = true ∧ live s' = spawned s :: live s.
Proof.
  intros Hstep Hne. destruct s as [l sp lv n].
  destruct i, l; unfold_step Hstep;
    unfold after_sync, run_check in Hstep;
    repeat case_match; simplify_eq/=; auto.
Qed.

(** C4.  In every state the supervisor can reach, at most one service
    process is live, and a live one is the process whose handle the
    supervisor holds; a step that spawns a service process starts from a
    state in which none is live: the previous one was waited for. *)
Theorem at_most_one_service_process (inputs : list Input) (s : State) :
  run initial inputs = Some s →
  length (live s) ≤ 1 ∧
  (∀ p, p ∈ live s → server_process s = Some p) ∧
  (∀ i s', step s i = Some s' → spawned s' ≠ spawned s →
           live s = [] ∧ live s' = [spawned s]).
Proof.
  intros Hrun.
  destruct (invariant_run _ _ _ invariant_initial Hrun) as [Hlive Hquiet].
  split; [|split].
  - destruct Hlive as [->|(p & -> & _)]; simpl; lia.
  - intros p Hp. destruct Hlive as [Hnil|(q & Hq & Hsp)].
    + rewrite Hnil in Hp. by apply elem_of_nil in Hp.
    + rewrite Hq in Hp. by apply list_elem_of_singleton in Hp as ->.
  - intros i s' Hstep Hne.
    destruct (spawn_step _ _ _ Hstep Hne) as (-> & Hpc & ->).
    by rewrite (Hquiet Hpc).
Qed.

Lemma at_most_one_service_process_witness :
  ∃ s, run initial [SyncDone 0; Tick; FsEvent (created "data/new.pdf"); Tick;
                    ProcessExit 0; Tick; SyncDone 0; Tick] = Some s ∧
       live s = [1] ∧ length (live s) ≤ 1.
Proof.
  eexists. split; [reflexivity|]. split; [reflexivity|].
  eapply (at_most_one_service_process
            [SyncDone 0; Tick; FsEvent (created "data/new.pdf"); Tick;
             ProcessExit 0; Tick; SyncDone 0; Tick]).
  reflexivity.
Defined.

Lemma stopped_step n s i s' :
  stopped n s → i ≠ SyncDone 0 → step s i = Some s' → stopped n s'.
Proof.
  intros (Hlive & Hn & Hpc1 & Hpc2 & Hpc3) Hi Hstep.
  destruct s as [l sp lv k]. simpl in *. subst lv k.
  destruct i.
  - destruct l; try done; unfold_step Hstep; destruct sp as [p|]; simplify_eq/=; try done.
  - destruct l; try done; unfold_step Hstep; simplify_eq/=;
      unfold after_sync, run_check; (case_decide as Hrc; [by subst|]); by repeat split.
  - destruct l; try done; unfold_step Hstep; by simplify_eq/=.
  - destruct l; try done; unfold_step Hstep. destruct (ignored event); by simplify_eq/=.
  - done.
  - destruct l; try done; unfold_step Hstep; by simplify_eq/=.
Qed.

Lemma stopped_run n s inputs s' :
  stopped n s → Forall (λ i, i ≠ SyncDone 0) inputs →
  run s inputs = Some s' → stopped n s'.
Proof.
  intros Hs Hin. revert s Hs.
  induction Hin as [|i inputs Hi Hin IH]; intros s Hs Hrun; simpl in Hrun.
  - by simplify_eq.
  - destruct (step s i) as [s1|] eqn:Hstep; [|done].
    eauto using stopped_step.
Qed.

(** C6.  When the synchronisation subprocess of a restart cycle exits with a
    non-zero status, the cycle returns to watching without a spawn and with
    no service process live, and none is live or spawned for as long as no
    later synchronisation exits with status zero. *)
Theorem failed_sync_leaves_no_service (inputs : list Input) (s : State)
    (returncode : Z) :
  run initial inputs = Some s → pc s = RestartSync → returncode ≠ 0%Z →
  ∃ s', step s (SyncDone returncode) = Some s' ∧
        pc s' = Watching ∧ live s' = [] ∧ spawned s' = spawned s ∧
        ∀ later s'', Forall (λ i, i ≠ SyncDone 0) later →
                     run s' later = Some s'' →
                     live s'' = [] ∧ spawned s'' = spawned s.
Proof.
  intros Hrun Hpc Hrc.
  destruct (invariant_run _ _ _ invariant_initial Hrun) as [_ Hquiet].
  assert (live s = []) as Hlive by (apply Hquiet; by rewrite Hpc).
  destruct s as [l sp lv n]. simpl in *. subst l lv.
  eexists. split; [reflexivity|].
  unfold after_sync, run_check. rewrite decide_False by done. simpl.
  do 3 (split; [done|]).
  intros later s'' Hlater Hrun'.
  assert (stopped n (goto Watching (mkState RestartSync sp [] n))) as Hstopped
    by (by repeat split).
  destruct (stopped_run n _ later s'' Hstopped Hlater Hrun') as (? & ? & _).
  done.
Qed.

Lemma failed_sync_leaves_no_service_witness :
  ∃ s', step (mkState RestartSync (Some 0) [] 1) (SyncDone 1) = Some s' ∧
        pc s' = Watching ∧ live s' = [] ∧ spawned s' = 1 ∧
        ∀ later s'', Forall (λ i, i ≠ SyncDone 0) later →
                     run s' later = Some s'' →
                     live s'' = [] ∧ spawned s'' = 1.
Proof.
  apply (failed_sync_leaves_no_service
           [SyncDone 0; Tick; FsEvent (created "data/new.pdf"); Tick;
            ProcessExit 0; Tick]
           (mkState RestartSync (Some 0) [] 1) 1);
    [reflexivity|reflexivity|lia].
Defined.

Lemma step_event s event :
  pc s = Watching → ignored event = false →
  step s (FsEvent event) = Some (goto RestartEntry s).
Proof.
  intros Hpc Hev. unfold step, main, on_any_event. by rewrite Hpc, Hev.
Qed.

(** After a failed cycle, the next event whose synchronisation succeeds
    brings a service process back. *)
Lemma later_cycle_restores_service s event :
  pc s = Watching → live s = [] → ignored event = false →
  ∃ inputs s', run s inputs = Some s' ∧
               pc s' = Watching ∧ live s' = [spawned s].
Proof.
  intros Hpc Hlive Hev. pose proof (step_event s event Hpc Hev) as Hstep.
  destruct s as [l [p|] lv n]; cbn [pc live] in Hpc, Hlive; subst.
  - exists [FsEvent event; Tick; Tick; SyncDone 0; Tick]. eexists.
    cbn [run]. rewrite Hstep. done.
  - exists [FsEvent event; Tick; SyncDone 0; Tick]. eexists.
    cbn [run]. rewrite Hstep. done.
Qed.

(** ** Synchronisations and spawns *)

Lemma paid_step k s i s' :
  paid k s → step s i = Some s' →
  paid (if successful i then S k else k) s'.
Proof.
  intros Hpaid Hstep. destruct s as [l sp lv n].
  unfold paid, committed in *. simpl in *.
  destruct i.
  - destruct l; unfold_step Hstep; repeat case_match; simplify_eq/=; lia.
  - destruct l; unfold_step Hstep; simplify_eq/=;
      unfold after_sync, run_check; repeat case_decide; simplify_eq/=;
      try rewrite bool_decide_eq_true_2 by done;
      try rewrite bool_decide_eq_false_2 by done; simpl; lia.
  - destruct l; unfold_step Hstep; simplify_eq/=; lia.
  - destruct l; unfold_step Hstep. destruct (ignored event); simplify_eq/=; lia.
  - unfold_step Hstep. case_decide; simplify_eq/=. destruct l; lia.
  - destruct l; unfold_step Hstep; simplify_eq/=; lia.
Qed.

Lemma paid_run k s inputs s' :
  paid k s → run s inputs = Some s' → paid (k + successes inputs) s'.
Proof.
  revert k s. induction inputs as [|i inputs IH]; intros k s Hpaid Hrun; simpl in Hrun.
  - simplify_eq. unfold successes. simpl. by rewrite Nat.add_0_r.
  - destruct (step s i) as [s1|] eqn:Hstep; [|done].
    pose proof (IH _ _ (paid_step _ _ _ _ Hpaid Hstep) Hrun) as Hs'.
    unfold successes in *. simpl. destruct (successful i); simpl in *.
    + by replace (k + S (length (List.filter successful inputs)))
        with (S k + length (List.filter successful inputs)) by lia.
    + done.
Qed.

(** X16.  The supervisor starts a service process only after a
    synchronisation that exited with status zero, once per such
    synchronisation: the number of processes started never exceeds the
    number of successful synchronisations, and whenever the supervisor is
    watching the two numbers are equal. *)
Theorem spawns_follow_successful_syncs (inputs : list Input) (s : State) :
  run initial inputs = Some s →
  spawned s ≤ successes inputs ∧
  (pc s = Watching → spawned s = successes inputs).
Proof.
  intros Hrun.
  assert (paid 0 initial) as Hinit by done.
  pose proof (paid_run _ _ _ _ Hinit Hrun) as Hpaid.
  unfold paid, committed in Hpaid. simpl in Hpaid.
  split; [|by intros Hpc; rewrite Hpc in Hpaid].
  destruct (pc s); lia.
Qed.

Lemma spawns_follow_successful_syncs_witness :
  ∃ s, run initial [SyncDone 0; Tick; FsEvent (created "data/new.pdf"); Tick;
                    ProcessExit 0; Tick; SyncDone 2] = Some s ∧
       spawned s ≤ 1 ∧ (pc s = Watching → spawned s = 1).
Proof.
  eexists. split; [reflexivity|].
  apply (spawns_follow_successful_syncs
           [SyncDone 0; Tick; FsEvent (created "data/new.pdf"); Tick;
            ProcessExit 0; Tick; SyncDone 2]).
  reflexivity.
Defined.

(** ** The end of [main] *)

Lemma exited_step s i s' :
  pc s = Exited → step s i = Some s' →
  is_exit i ∧ pc s' = Exited ∧ spawned s' = spawned s ∧
  server_process s' = server_process s ∧ live s' ⊆ live s.
Proof.
  intros Hpc Hstep. destruct s as [l sp lv n]. simpl in *. subst l.
  destruct i; unfold_step Hstep.
  case_decide; simplify_eq/=. split; [by eexists|]. repeat split.
  intros q Hq. by apply list_elem_of_filter in Hq as [_ Hq].
Qed.

Lemma exited_run s inputs s' :
  pc s = Exited → run s inputs = Some s' →
  Forall is_exit inputs ∧ pc s' = Exited ∧ spawned s' = spawned s ∧
  server_process s' = server_process s ∧ live s' ⊆ live s.
Proof.
  revert s. induction inputs as [|i inputs IH]; intros s Hpc Hrun; simpl in Hrun.
  - by simplify_eq.
  - destruct (step s i) as [s1|] eqn:Hstep; [|done].
    destruct (exited_step _ _ _ Hpc Hstep) as (Hi & Hpc1 & Hn1 & Hsp1 & Hlv1).
    destruct (IH _ Hpc1 Hrun) as (Hin & ? & ? & ? & ?).
    split; [by constructor|]. split; [done|]. split; [congruence|].
    split; [congruence|]. by etrans.
Qed.

(** X17.  When the first synchronisation fails, with a non-zero exit status
    or because the subprocess could not be started, [main] is over: no
    service process is ever started and no event is handled. *)
Theorem failed_initial_sync_ends_main (i : Input) (later : list Input) (s : State) :
  (i = SyncNotStarted ∨ ∃ returncode, i = SyncDone returncode ∧ returncode ≠ 0%Z) →
  run initial (i :: later) = Some s →
  later = [] ∧ pc s = Exited ∧ spawned s = 0 ∧ live s = [] ∧ server_process s = None.
Proof.
  intros Hi Hrun.
  assert (step initial i = Some (goto Exited initial)) as Hstep.
  { destruct Hi as [->|(rc & -> & Hrc)]; [done|].
    unfold step, main, after_sync, run_check. simpl. by rewrite decide_False. }
  cbn [run] in Hrun. rewrite Hstep in Hrun.
  destruct (exited_run (goto Exited initial) _ _ eq_refl Hrun)
    as (Hin & Hpc & Hn & Hsp & Hlv).
  assert (later = []) as ->.
  { destruct later as [|j later]; [done|]. exfalso.
    cbn [run] in Hrun. by destruct j. }
  simpl in Hrun. by simplify_eq.
Qed.

Lemma failed_initial_sync_ends_main_witness :
  @nil Input = [] ∧ pc (goto Exited initial) = Exited ∧
  spawned (goto Exited initial) = 0 ∧ live (goto Exited initial) = [] ∧
  server_process (goto Exited initial) = None.
Proof.
  apply (failed_initial_sync_ends_main (SyncDone 1) [] (goto Exited initial)).
  - right. exists 1%Z. split; [reflexivity|lia].
  - reflexivity.
Defined.





(** ** Restart cycles *)

(** X19.  A restart cycle that goes well ends with one fresh service
    process: from every reachable state in which the supervisor is
    watching, a change event that is not ignored, the exit of the old
    process if it is still running, and a synchronisation with status zero
    lead back to watching, with the newly spawned process as the only live
    one and as the one whose handle is held. *)
Theorem restart_replaces_service (inputs : list Input) (s : State) (event : Event) :
  run initial inputs = Some s → pc s = Watching → ignored event = false →
  ∃ s', run s (good_cycle s event) = Some s' ∧
        pc s' = Watching ∧ live s' = [spawned s] ∧
        server_process s' = Some (spawned s) ∧ spawned s' = S (spawned s).
Proof.
  intros Hrun Hpc Hev.
  destruct (invariant_run _ _ _ invariant_initial Hrun) as [Hlive _].
  pose proof (step_event s event Hpc Hev) as Hstep.
  unfold good_cycle.
  destruct s as [l [p|] lv n]; cbn [pc live server_process spawned] in *; subst l.
  - destruct Hlive as [->|(q & -> & [= ->])].
    + rewrite decide_False by apply not_elem_of_nil.
      eexists. cbn [run]. rewrite Hstep. done.
    + rewrite decide_True by (by left).
      eexists. cbn [run]. rewrite Hstep.
      unfold step, restart_server, goto. simpl.
      rewrite decide_True by (by left). simpl.
      assert (filter (λ q0 : pid, q0 ≠ q) [q] = []) as ->.
      { rewrite filter_cons, decide_False; [done|]. intros Hne. by apply Hne. }
      rewrite decide_False by apply not_elem_of_nil.
      simpl. done.
  - destruct Hlive as [->|(q & _ & ?)]; [|done].
    eexists. cbn [run]. rewrite Hstep. done.
Qed.

Lemma restart_replaces_service_witness :
  ∃ s', run (mkState Watching (Some 0) [0] 1)
            (good_cycle (mkState Watching (Some 0) [0] 1) (created "data/new.pdf"))
          = Some s' ∧
        pc s' = Watching ∧ live s' = [1] ∧
        server_process s' = Some 1 ∧ spawned s' = 2.
Proof.
  apply (restart_replaces_service [SyncDone 0; Tick]
           (mkState Watching (Some 0) [0] 1) (created "data/new.pdf")); reflexivity.
Defined.

Lemma first_service_step s i s' :
  first_service s → no_change i → step s i = Some s' → first_service s'.
Proof.
  intros Hs Hi Hstep. destruct s as [l sp lv n].
  unfold first_service in *. simpl in *.
  destruct i.
  - destruct l; try done; unfold_step Hstep; simplify_eq/=.
    destruct Hs as [-> ->]. split; [lia|done].
  - destruct l; try done; unfold_step Hstep; simplify_eq/=.
    unfold after_sync, run_check. case_decide; simpl; [done|].
    destruct Hs as [-> ->]. split; [lia|set_solver].
  - destruct l; try done; unfold_step Hstep; simplify_eq/=.
    destruct Hs as [-> ->]. split; [lia|set_solver].
  - destruct l; try done; unfold_step Hstep. rewrite Hi in Hstep. by simplify_eq/=.
  - unfold_step Hstep. case_decide; simplify_eq/=.
    destruct l; try done; destruct Hs as [Hn Hlv];
      try (rewrite Hlv in *; set_solver);
      (split; [done|]); intros q Hq; apply list_elem_of_filter in Hq as [_ Hq]; auto.
  - destruct l; try done; unfold_step Hstep; simplify_eq/=;
      destruct Hs as [Hn Hlv]; try (subst; split; [lia|set_solver]); by split.
Qed.

(** X20.  Restarts happen only in response to change events that pass the
    guard of [on_any_event]: as long as every event delivered is a directory
    event or of a type other than created, modified and deleted (a rename
    is reported as moved), the supervisor starts no service process but the
    first and never enters a restart cycle. *)
Theorem no_restart_without_change_event (inputs : list Input) (s : State) :
  Forall no_change inputs →
  run initial inputs = Some s →
  spawned s ≤ 1 ∧ live s ⊆ [0] ∧
  pc s ≠ RestartEntry ∧ pc s ≠ RestartWait ∧ pc s ≠ RestartSync ∧ pc s ≠ RestartSpawn ∧
  pc s ≠ ShutdownEntry ∧ pc s ≠ ShutdownWait ∧ pc s ≠ ShutdownSync ∧
  pc s ≠ ShutdownSpawn.
Proof.
  intros Hin Hrun.
  assert (first_service s) as Hs.
  { assert (first_service initial) as Hinit by done.
    revert Hinit Hrun. generalize initial. 
    induction Hin as [|i inputs Hi Hin IH]; intros s0 Hs0 Hrun; simpl in Hrun.
    - by simplify_eq.
    - destruct (step s0 i) as [s1|] eqn:Hstep; [|done].
      eauto using first_service_step. }
  unfold first_service in Hs.
  destruct (pc s); try done; destruct Hs as [Hn Hlv];
    (split; [lia|]);
    (split; [first [exact Hlv|rewrite Hlv; apply list_subseteq_nil]|]); done.
Qed.

Lemma no_restart_without_change_event_witness :
  spawned (mkState Watching (Some 0) [0] 1) ≤ 1 ∧
  live (mkState Watching (Some 0) [0] 1) ⊆ [0] ∧
  pc (mkState Watching (Some 0) [0] 1) ≠ RestartEntry ∧
  pc (mkState Watching (Some 0) [0] 1) ≠ RestartWait ∧
  pc (mkState Watching (Some 0) [0] 1) ≠ RestartSync ∧
  pc (mkState Watching (Some 0) [0] 1) ≠ RestartSpawn ∧
  pc (mkState Watching (Some 0) [0] 1) ≠ ShutdownEntry ∧
  pc (mkState Watching (Some 0) [0] 1) ≠ ShutdownWait ∧
  pc (mkState Watching (Some 0) [0] 1) ≠ ShutdownSync ∧
  pc (mkState Watching (Some 0) [0] 1) ≠ ShutdownSpawn.
Proof.
  apply (no_restart_without_change_event
           [SyncDone 0; Tick; FsEvent (moved "data/a.pdf")]
           (mkState Watching (Some 0) [0] 1)).
  - repeat constructor.
  - reflexivity.
Defined.

End watcher_proofs.

(** ** The log store *)

Module fastapi_app_proofs.
Import fastapi_app.

Section Codec.
Variable json_loads : string → option json.
Variable json_dumps : json → string.

(** Whatever the statements inside the outer [try] raise is an
    [Exception]. *)
Lemma log_to_json_body_raises f data e :
  log_to_json_body json_loads json_dumps f data = Raise e → is_Exception e = true.
Proof.
  unfold log_to_json_body, json_load. intros Hbody.
  destruct f as [| |contents|contents]; simpl in Hbody.
  - by simplify_eq.
  - by simplify_eq.
  - destruct (json_loads contents) as [[]|]; simpl in Hbody; by simplify_eq.
  - destruct (json_loads contents) as [[]|]; simpl in Hbody; by simplify_eq.
Qed.

Lemma log_to_json_returns w data :
  ∃ w', log_to_json json_loads json_dumps w data = Ok w'.
Proof.
  unfold log_to_json.
  destruct (log_to_json_body json_loads json_dumps (log_file w) data) as [f|e] eqn:Hbody;
    simpl; [eauto|].
  rewrite (log_to_json_body_raises _ _ _ Hbody). eauto.
Qed.


(** What the outer handler does with an exception: the file is left
    alone and the exception goes to the console. *)
Lemma log_to_json_caught w data e :
  log_to_json_body json_loads json_dumps (log_file w) data = Raise e →
  log_to_json json_loads json_dumps w data =
    Ok {| log_file := log_file w; console := console w ++ [e] |}.
Proof.
  intros Hbody. unfold log_to_json. rewrite Hbody. simpl.
  by rewrite (log_to_json_body_raises _ _ _ Hbody).
Qed.
End Codec.


(** The body does raise: a file that holds a JSON object has no [append]. *)
Example log_to_json_body_attribute_error :
  log_to_json_body (λ _, Some (JDict [])) sample_dumps (Text "{}") sample_record
  = Raise AttributeError.
Proof. reflexivity. Qed.

(** A corrupt file that cannot be opened for writing is left as it is; the
    error goes to the console and not to the caller. *)
Example log_to_json_read_only :
  log_to_json sample_loads sample_dumps
    {| log_file := ReadOnly "[{query_text: "; console := [] |} sample_record
  = Ok {| log_file := ReadOnly "[{query_text: "; console := [OSError] |}.
Proof. reflexivity. Qed.

(** A first record creates the file. *)
Example log_to_json_missing_file :
  log_to_json sample_loads sample_dumps
    {| log_file := Missing; console := [] |} sample_record
  = Ok {| log_file := Text "[1 entries]"; console := [] |}.
Proof. reflexivity. Qed.

(** ** Successive calls and the outcomes of a call *)

Section Logging.
Variable json_loads : string → option json.
Variable json_dumps : json → string.

Lemma log_to_json_appends w data items :
  holds json_loads (log_file w) items →
  log_to_json json_loads json_dumps w data =
  Ok {| log_file := Text (json_dumps (JList (items ++ [data]))); console := console w |}.
Proof.
  unfold holds, log_to_json, log_to_json_body, json_load.
  destruct (log_file w) as [| |contents|contents]; try done.
  - by intros ->.
  - simpl. by intros ->.
Qed.

(** X21.  The log accumulates: when the file is absent or holds an array, and
    the codec reads back the arrays it has written on the way, successive
    calls leave the array extended by all the records, in the order of the
    calls, and print nothing. *)
Theorem log_all_accumulates (w : World) (items records : list json) :
  holds json_loads (log_file w) items →
  (∀ k, 0 < k < length records →
        json_loads (json_dumps (JList (items ++ take k records)))
        = Some (JList (items ++ take k records))) →
  records ≠ [] →
  log_all json_loads json_dumps w records =
  Ok {| log_file := Text (json_dumps (JList (items ++ records)));
        console := console w |}.
Proof.
  revert w items. induction records as [|data records IH]; intros w items Hw Hround Hne;
    [done|].
  cbn [log_all]. rewrite (log_to_json_appends _ _ _ Hw). cbn [mbind result_bind].
  destruct records as [|data' records].
  { done. }
  rewrite (IH _ (items ++ [data])).
  - cbn [console]. by rewrite <- app_assoc.
  - cbn [log_file holds]. apply (Hround 1). simpl. lia.
  - intros k Hk. rewrite <- app_assoc. apply (Hround (S k)). simpl in *. lia.
  - done.
Qed.

(** X22.  A log file that holds valid JSON other than an array swallows the
    record: [append] fails on the loaded value, the file is left as it is
    and the caller sees nothing but the line on the console. *)
Theorem log_to_json_not_a_list (w : World) (contents : string) (v data : json) :
  log_file w = Text contents ∨ log_file w = ReadOnly contents →
  json_loads contents = Some v →
  (∀ items, v ≠ JList items) →
  log_to_json json_loads json_dumps w data =
  Ok {| log_file := log_file w; console := console w ++ [AttributeError] |}.
Proof.
  intros Hfile Hv Hnot. apply log_to_json_caught.
  unfold log_to_json_body, json_load.
  destruct Hfile as [-> | ->]; simpl; rewrite Hv; simpl;
    destruct v; try done; by destruct (Hnot items).
Qed.

End Logging.

Lemma log_all_accumulates_witness :
  log_all table_loads sample_dumps {| log_file := Missing; console := [] |}
    [sample_record; JNull]
  = Ok {| log_file := Text (sample_dumps (JList ([] ++ [sample_record; JNull])));
          console := [] |}.
Proof.
  apply (log_all_accumulates table_loads sample_dumps
           {| log_file := Missing; console := [] |} [] [sample_record; JNull]).
  - reflexivity.
  - intros k Hk. simpl in Hk. assert (k = 1) as -> by lia. reflexivity.
  - discriminate.
Defined.

Lemma log_to_json_not_a_list_witness :
  log_to_json (λ _, Some (JDict [])) sample_dumps
    {| log_file := Text "{}"; console := [] |} sample_record
  = Ok {| log_file := Text "{}"; console := [] ++ [AttributeError] |}.
Proof.
  apply (log_to_json_not_a_list (λ _, Some (JDict [])) sample_dumps
           {| log_file := Text "{}"; console := [] |} "{}" (JDict []) sample_record).
  - left. reflexivity.
  - reflexivity.
  - discriminate.
Defined.

(** ** The query endpoint *)

Section Service.
Variable ext : Externals.

(** Runs the statements of a request that do not depend on the outside. *)
Ltac run_request :=
  cbv beta iota zeta delta
    [query_rag query_rag_try query_rag_except time_time external model_invoke
     call_log_to_json get_first_request set_first_request
     mbind action_bind mret action_ret];
  cbn [world first_request clock prompts].

(** [log_to_json] returns, whatever it is given. *)
Ltac log_returns s :=
  match goal with |- context [log_to_json _ _ _ ?entry] =>
    let w := fresh "w" in let Hw := fresh "Hw" in
    destruct (log_to_json_returns (loads ext) (dumps ext) (world s) entry) as [w Hw];
    rewrite Hw
  end.

(** X24.  Whatever a request ends with, what the client gets is what the log
    gets: the body returned, or the detail of the 500 error, is the record
    handed to [log_to_json], once; the record tells whether the request was
    the first one, and afterwards the service no longer counts as fresh.
    Only an exception that is no [Exception] escapes, and then nothing is
    logged. *)
Theorem query_rag_outcomes (query_text : string) (s : Service) :
  ∃ out s', query_rag ext query_text s = (out, s') ∧
    ((∃ entry,
        (out = Returned entry ∨ out = HTTPException 500 entry) ∧
        log_to_json (loads ext) (dumps ext) (world s) entry = Ok (world s') ∧
        first_request s' = false ∧
        field "query_text" entry = Some (JString query_text) ∧
        field "first_request" entry = Some (JBool (first_request s)))
     ∨ (∃ e, out = Uncaught e ∧ is_Exception e = false ∧
             world s' = world s ∧ first_request s' = first_request s)).
Proof.
  run_request.
  destruct (similarity_search_with_score ext query_text) as [results|e] eqn:Hsearch.
  - run_request.
    destruct (invoke ext (prompt_of ext results query_text))
      as [response_text|e] eqn:Hinvoke.
    + run_request. log_returns s.
      eexists _, _. split; [reflexivity|]. left. eexists. split; [by left|].
      cbn [world first_request]. repeat split; done.
    + run_request. destruct (is_Exception e) eqn:He.
      * log_returns s.
        eexists _, _. split; [reflexivity|]. left. eexists. split; [by right|].
        cbn [world first_request]. repeat split; done.
      * eexists _, _. split; [reflexivity|]. right. by exists e.
  - run_request. destruct (is_Exception e) eqn:He.
    + log_returns s.
      eexists _, _. split; [reflexivity|]. left. eexists. split; [by right|].
      cbn [world first_request]. repeat split; done.
    + eexists _, _. split; [reflexivity|]. right. by exists e.
Qed.

(** X25.  A request whose search and model call return: the body carries the
    model's response to the prompt built from the passages found, the ids
    of these passages as sources and the error text [None]; the model has
    been invoked once, with that prompt. *)
Theorem query_rag_success (query_text : string) (s : Service)
    (results : list (populate_database.Document * float ext))
    (response_text : string) :
  similarity_search_with_score ext query_text = Ok results →
  invoke ext (prompt_of ext results query_text) = Ok response_text →
  ∃ body s',
    query_rag ext query_text s = (Returned body, s') ∧
    field "response" body = Some (JString response_text) ∧
    field "sources" body =
      Some (JList ((λ r, json_of_value (get (populate_database.metadata r.1) "id"))
                     <$> results)) ∧
    field "error" body = Some (JString "None") ∧
    prompts s' = prompts s ++ [prompt_of ext results query_text].
Proof.
  intros Hsearch Hinvoke. run_request. rewrite Hsearch. run_request.
  rewrite Hinvoke. run_request. log_returns s.
  eexists _, _. split; [reflexivity|]. cbn [prompts].
  repeat split; try done. cbn [field List.find bool_decide fmap option_fmap option_map].
  simpl. by rewrite <- list_fmap_compose.
Qed.

(** X26.  A request whose search or model call raises an [Exception] ends
    with the status 500; the detail names the error by [str(e)], or by the
    text [None] when [str(e)] is empty, and carries neither response nor
    sources nor the search and model times, also when the search had
    returned.  When it is the search that failed, the model is not
    invoked. *)
Theorem query_rag_failure (query_text : string) (s : Service) (e : exn) :
  similarity_search_with_score ext query_text = Raise e ∨
  (∃ results, similarity_search_with_score ext query_text = Ok results ∧
              invoke ext (prompt_of ext results query_text) = Raise e) →
  is_Exception e = true →
  ∃ detail s',
    query_rag ext query_text s = (HTTPException 500 detail, s') ∧
    field "error" detail = Some (JString (error_or_None (Some (str ext e)))) ∧
    (str ext e = EmptyString → field "error" detail = Some (JString "None")) ∧
    field "response" detail = Some JNull ∧
    field "sources" detail = Some JNull ∧
    field "search_time_seconds" detail = Some JNull ∧
    field "model_time_seconds" detail = Some JNull ∧
    (similarity_search_with_score ext query_text = Raise e → prompts s' = prompts s).
Proof.
  intros [Hsearch|(results & Hsearch & Hinvoke)] He; run_request; rewrite Hsearch;
    run_request; [|rewrite Hinvoke; run_request]; rewrite He; log_returns s;
    (eexists _, _; split; [reflexivity|]); cbn [prompts];
    repeat split; try done; try congruence;
    intros Hstr; simpl; by rewrite Hstr.
Qed.

(** From here on the store and the model raise nothing but [Exception]s. *)
Hypothesis search_raises_Exception : ∀ query_text e,
  similarity_search_with_score ext query_text = Raise e → is_Exception e = true.
Hypothesis invoke_raises_Exception : ∀ prompt e,
  invoke ext prompt = Raise e → is_Exception e = true.

Lemma query_rag_logged query_text s :
  ∃ out s' entry,
    query_rag ext query_text s = (out, s') ∧ logged out = Some entry ∧
    log_to_json (loads ext) (dumps ext) (world s) entry = Ok (world s') ∧
    first_request s' = false ∧
    field "first_request" entry = Some (JBool (first_request s)).
Proof.
  run_request.
  destruct (similarity_search_with_score ext query_text) as [results|e] eqn:Hsearch.
  - run_request.
    destruct (invoke ext (prompt_of ext results query_text))
      as [response_text|e] eqn:Hinvoke.
    + run_request. log_returns s. by eexists _, _, _.
    + run_request. rewrite (invoke_raises_Exception _ _ Hinvoke). log_returns s.
      by eexists _, _, _.
  - run_request. rewrite (search_raises_Exception _ _ Hsearch). log_returns s.
    by eexists _, _, _.
Qed.

(** X27.  Requests served one after the other, with a store and a model
    that raise nothing but [Exception]s: every request, failed or not,
    leaves one record, the log receives the records in the order of the
    requests, and no record but the first can be flagged as the first
    request. *)
Theorem serve_logs_every_request (queries : list string) (s : Service) :
  ∃ outs s' entries,
    serve ext queries s = (outs, s') ∧
    logged <$> outs = Some <$> entries ∧
    length entries = length queries ∧
    log_all (loads ext) (dumps ext) (world s) entries = Ok (world s') ∧
    ∀ i entry, entries !! i = Some entry →
      field "first_request" entry =
      Some (JBool (bool_decide (i = 0) && first_request s)).
Proof.
  revert s. induction queries as [|query_text queries IH]; intros s.
  { by eexists [], s, []. }
  destruct (query_rag_logged query_text s) as (out & s1 & entry & Hq & Hout & Hlog & Hfr & Hfirst).
  destruct (IH s1) as (outs & s' & entries & Hserve & Houts & Hlen & Hlogs & Hrest).
  exists (out :: outs), s', (entry :: entries).
  split; [|split; [|split; [|split]]].
  - cbn [serve]. by rewrite Hq, Hserve.
  - rewrite !fmap_cons. by rewrite Hout, Houts.
  - simpl. by rewrite Hlen.
  - cbn [log_all]. rewrite Hlog. done.
  - intros [|i] entry' Hi; simplify_eq/=; [done|].
    rewrite (Hrest _ _ Hi), Hfr. by rewrite andb_false_r.
Qed.

End Service.

Lemma query_rag_success_witness :
  ∃ body s',
    query_rag sample_externals "why" sample_service = (Returned body, s') ∧
    field "response" body = Some (JString "passage?why") ∧
    field "sources" body =
      Some (JList ((λ r, json_of_value (get (populate_database.metadata r.1) "id"))
                     <$> [(populate_database.mkDocument "passage"
                             {["id" := VStr "a.pdf:0:0"]}, 1%Z)])) ∧
    field "error" body = Some (JString "None") ∧
    prompts s' =
      prompts sample_service ++
      [prompt_of sample_externals
         [(populate_database.mkDocument "passage" {["id" := VStr "a.pdf:0:0"]}, 1%Z)]
         "why"].
Proof.
  apply (query_rag_success sample_externals "why" sample_service
           [(populate_database.mkDocument "passage" {["id" := VStr "a.pdf:0:0"]}, 1%Z)]
           "passage?why"); reflexivity.
Defined.

Lemma query_rag_failure_witness :
  ∃ detail s',
    query_rag sample_externals "fail" sample_service = (HTTPException 500 detail, s') ∧
    field "error" detail =
      Some (JString (error_or_None (Some (str sample_externals ValueError)))) ∧
    (str sample_externals ValueError = EmptyString →
     field "error" detail = Some (JString "None")) ∧
    field "response" detail = Some JNull ∧
    field "sources" detail = Some JNull ∧
    field "search_time_seconds" detail = Some JNull ∧
    field "model_time_seconds" detail = Some JNull ∧
    (similarity_search_with_score sample_externals "fail" = Raise ValueError →
     prompts s' = prompts sample_service).
Proof.
  apply (query_rag_failure sample_externals "fail" sample_service ValueError).
  - left. reflexivity.
  - reflexivity.
Defined.

Lemma serve_logs_every_request_witness :
  ∃ outs s' entries,
    serve sample_externals ["why"; "fail"] sample_service = (outs, s') ∧
    logged <$> outs = Some <$> entries ∧
    length entries = length ["why"; "fail"] ∧
    log_all (loads sample_externals) (dumps sample_externals)
      (world sample_service) entries = Ok (world s') ∧
    ∀ i entry, entries !! i = Some entry →
      field "first_request" entry =
      Some (JBool (bool_decide (i = 0) && first_request sample_service)).
Proof.
  apply (serve_logs_every_request sample_externals).
  - intros query_text e. simpl. case_decide; [|done]. by intros [= <-].
  - intros prompt e. simpl. done.
Defined.

End fastapi_app_proofs.
